(** * TwitchDropsMiner (modded): a shallow embedding of the orchestration core

    The development follows the Python sources:
    - [twitch/drops.py], [twitch/client.py]: the deep merge of JSON trees,
      the channel switch rule, the GQL error handling;
    - [twitch/websocket.py]: the pub/sub pool and its topic tables;
    - [priority_algorithms.py]: the BALANCED and ADAPTIVE scores;
    - [settings.py]: the legacy-key migration.

    Dictionaries are [gmap]s, Python sets of strings are [gset]s, exceptions
    are values of a result type, and in-place mutation is explicit state
    passing. *)

From Stdlib Require Import ZArith QArith Qminmax Lia Lqa.
From stdpp Require Import gmap strings list fin_maps fin_sets sorting.

Set Default Proof Using "Type".
#[local] Set Warnings "-register-all".

(** ** Python values shared by the components *)

(** A decoded JSON value ([JsonType] and its leaves). A float is carried by
    its 64-bit pattern: none of the modelled code computes on the floats of a
    JSON tree. *)
Inductive Json : Type :=
  | JNull
  | JBool (b : bool)
  | JInt (z : Z)
  | JFloat (bits : Z)
  | JStr (s : string)
  | JList (l : list Json)
  | JDict (m : gmap string Json).

(** The exceptions the modelled code raises. *)
Inductive exn : Type :=
  | MinerException (msg : string)
  (* [MinerException(f"GQL error: {errors}{additional_message}")]: the raw
     error list, and whether the PersistedQueryNotFound help text follows *)
  | GqlError (errors : Json) (persisted_query_help : bool)
  | IndexError
  | TypeError
  | ZeroDivisionError
  | AttributeError.

Inductive result (A : Type) : Type :=
  | Ok (a : A)
  | Raise (e : exn).
Arguments Ok {A} a.
Arguments Raise {A} e.

Definition result_map {A B : Type} (f : A → B) (r : result A) : result B :=
  match r with
  | Ok a => Ok (f a)
  | Raise e => Raise e
  end.

(** The classes of the decoded values, with [bool] a subclass of [int] as in
    Python. *)
Inductive pytype : Type :=
  | NoneType | bool_t | int_t | float_t | str_t | list_t | dict_t.

#[global] Instance pytype_eq_dec : EqDecision pytype.
Proof. solve_decision. Defined.

Definition type_of (v : Json) : pytype :=
  match v with
  | JNull => NoneType
  | JBool _ => bool_t
  | JInt _ => int_t
  | JFloat _ => float_t
  | JStr _ => str_t
  | JList _ => list_t
  | JDict _ => dict_t
  end.

Definition issubclass (a b : pytype) : bool :=
  bool_decide (a = b) || (bool_decide (a = bool_t) && bool_decide (b = int_t)).

Definition isinstance (v : Json) (t : pytype) : bool := issubclass (type_of v) t.

(** Truth value of a JSON value used as a condition. *)
Definition truthy (v : Json) : bool :=
  match v with
  | JNull => false
  | JBool b => b
  | JInt z => negb (z =? 0)%Z
  | JFloat bits => negb ((bits =? 0)%Z || (bits =? 2 ^ 63)%Z)
  | JStr s => negb (String.eqb s "")
  | JList l => negb (bool_decide (l = []))
  | JDict m => negb (bool_decide (size m = 0))
  end.

(** ** Deep merge of JSON trees ([DropsManager._merge_data], [Twitch._merge_data]) *)

Module Merge.

(** The body of the loop for one key of the union: [op] and [os] are the
    entries of the primary and of the secondary tree, [both] what is done for a
    key that both have. *)
Definition merge_key (both : Json → Json → result Json)
    (op os : option Json) : option (result Json) :=
  match op, os with
  | Some vp, Some vs => Some (both vp vs)
  | Some vp, None => Some (Ok vp)
  | None, Some vs => Some (Ok vs)
  | None, None => None
  end.

(** The first exception stored in a table of results, if any. The loop stops
    at the first [raise]; every exception is the same one, so which key
    raised first does not show in the outcome. *)
Definition first_raise (m : gmap string (result Json)) : option exn :=
  map_fold (λ _ r acc, match r with Raise e => Some e | Ok _ => acc end) None m.

Definition ok_value (r : result Json) : option Json :=
  match r with Ok v => Some v | Raise _ => None end.

(** [merged], once the loop over the keys has run: the exception if an
    iteration raised, the table otherwise. *)
Definition collect (m : gmap string (result Json)) : result (gmap string Json) :=
  match first_raise m with
  | Some e => Raise e
  | None => Ok (omap ok_value m)
  end.

Definition inconsistent (vp vs : Json) : bool :=
  negb (isinstance vp (type_of vs)) || negb (isinstance vs (type_of vp)).

(** The branch [if in_primary and key in secondary_data], on the two values. *)
Fixpoint merge_both (vp vs : Json) {struct vp} : result Json :=
  if inconsistent vp vs then Raise (MinerException "Inconsistent merge data")
  else
    match vp, vs with
    | JDict p, JDict s =>
        result_map JDict (collect (merge (merge_key merge_both) p s))
    | _, _ => Ok vp
    end.

Definition _merge_data (primary_data secondary_data : gmap string Json)
    : result (gmap string Json) :=
  collect (merge (merge_key merge_both) primary_data secondary_data).

(** Size of a tree, the measure of the inductions below. *)
Fixpoint Json_size (v : Json) : nat :=
  match v with
  | JList l => S (foldr (λ x acc, Json_size x + acc) 0 l)
  | JDict m => S (map_fold (λ _ x acc, Json_size x + acc) 0 m)
  | _ => 1
  end.

End Merge.

Module MergeFacts.
Import Merge.

Lemma first_raise_spec (m : gmap string (result Json)) :
  match first_raise m with
  | None => ∀ k r, m !! k = Some r → ∃ v, r = Ok v
  | Some e => ∃ k, m !! k = Some (Raise e)
  end.
Proof.
  unfold first_raise.
  apply (map_fold_weak_ind (λ (acc : option exn) (m : gmap string (result Json)),
    match acc with
    | None => ∀ k r, m !! k = Some r → ∃ v, r = Ok v
    | Some e => ∃ k, m !! k = Some (Raise e)
    end)).
  - intros k r. by rewrite lookup_empty.
  - intros i x m' acc Hi IH. destruct x as [v|e].
    + destruct acc as [e|].
      * destruct IH as [k Hk]. exists k.
        rewrite lookup_insert_ne; [done|]. intros ->. congruence.
      * intros k r. rewrite lookup_insert. case_decide; [naive_solver|eauto].
    + exists i. by rewrite lookup_insert_eq.
Qed.

Lemma collect_Ok (m : gmap string (result Json)) (M : gmap string Json) :
  collect m = Ok M ↔ m = Ok <$> M.
Proof.
  unfold collect. pose proof (first_raise_spec m) as Hm.
  destruct (first_raise m) as [e|]; split.
  - done.
  - intros ->. destruct Hm as [k Hk]. rewrite lookup_fmap in Hk.
    destruct (M !! k); simplify_eq/=.
  - intros [= <-]. apply map_eq. intros k.
    rewrite lookup_fmap, lookup_omap.
    destruct (m !! k) as [r|] eqn:Hk; [|done].
    destruct (Hm k r Hk) as [v ->]. done.
  - intros ->. f_equal. apply map_eq. intros k.
    rewrite lookup_omap, lookup_fmap. by destruct (M !! k).
Qed.

Lemma collect_Raise (m : gmap string (result Json)) (e : exn) :
  collect m = Raise e → ∃ k, m !! k = Some (Raise e).
Proof.
  unfold collect. pose proof (first_raise_spec m) as Hm.
  destruct (first_raise m) as [e'|]; [|done]. by intros [= <-].
Qed.

Lemma collect_total (m : gmap string (result Json)) k e :
  m !! k = Some (Raise e) → ∃ e', collect m = Raise e'.
Proof.
  intros Hk. unfold collect. pose proof (first_raise_spec m) as Hm.
  destruct (first_raise m) as [e'|]; [eauto|].
  destruct (Hm k _ Hk) as [v ?]. done.
Qed.

Lemma lookup_merge_key both (A B : gmap string Json) k :
  merge (merge_key both) A B !! k = merge_key both (A !! k) (B !! k).
Proof. rewrite lookup_merge. by destruct (A !! k), (B !! k). Qed.

(** Both [isinstance] tests pass exactly when the two values have the same
    class: [bool] is below [int], but not the other way round. *)
Lemma inconsistent_types (vp vs : Json) :
  inconsistent vp vs = negb (bool_decide (type_of vp = type_of vs)).
Proof. by destruct vp, vs. Qed.

Lemma merge_both_dict (p s : gmap string Json) :
  merge_both (JDict p) (JDict s) = result_map JDict (_merge_data p s).
Proof. done. Qed.

Lemma merge_both_leaf (vp vs : Json) :
  type_of vp = type_of vs → type_of vp ≠ dict_t → merge_both vp vs = Ok vp.
Proof. destruct vp, vs; naive_solver. Qed.

Lemma merge_both_mismatch (vp vs : Json) :
  type_of vp ≠ type_of vs →
  merge_both vp vs = Raise (MinerException "Inconsistent merge data").
Proof. destruct vp, vs; naive_solver. Qed.

Lemma Json_size_lookup (m : gmap string Json) k v :
  m !! k = Some v → Json_size v < Json_size (JDict m).
Proof.
  intros Hk. simpl.
  rewrite (map_fold_delete_L _ _ k v m); [lia| |done].
  intros. lia.
Qed.

(** Induction on the trees below a dictionary. *)
Lemma Json_dict_ind (P : Json → Prop) :
  (∀ v, (∀ m k w, v = JDict m → m !! k = Some w → P w) → P v) →
  ∀ v, P v.
Proof.
  intros Hstep v. remember (Json_size v) as n eqn:Hn.
  revert v Hn. induction n as [n IH] using lt_wf_ind. intros v ->.
  apply Hstep. intros m k w -> Hk.
  eapply IH; [|done]. by eapply Json_size_lookup.
Qed.

Lemma merge_both_raises (vp vs : Json) e :
  merge_both vp vs = Raise e → e = MinerException "Inconsistent merge data".
Proof.
  revert vs e. induction vp as [vp IH] using Json_dict_ind. intros vs e.
  destruct (decide (type_of vp = type_of vs)) as [Ht|Ht].
  - destruct (decide (type_of vp = dict_t)) as [Hd|Hd].
    + destruct vp as [| | | | | |p]; try done. destruct vs as [| | | | | |s]; try done.
      rewrite merge_both_dict. unfold _merge_data.
      destruct (collect _) as [M|e'] eqn:Hc; simpl; [done|].
      intros [= ->]. apply collect_Raise in Hc as [k Hk].
      rewrite lookup_merge_key in Hk.
      destruct (p !! k) as [w|] eqn:Hw, (s !! k); simplify_eq/=.
      by eapply IH.
    + by rewrite merge_both_leaf.
  - rewrite merge_both_mismatch by done. by intros [= <-].
Qed.

Lemma merge_data_raises (A B : gmap string Json) e :
  _merge_data A B = Raise e → e = MinerException "Inconsistent merge data".
Proof.
  intros Hc. apply collect_Raise in Hc as [k Hk].
  rewrite lookup_merge_key in Hk.
  destruct (A !! k), (B !! k); simplify_eq/=. by eapply merge_both_raises.
Qed.

Lemma merge_both_diag (v : Json) : merge_both v v = Ok v.
Proof.
  induction v as [v IH] using Json_dict_ind.
  destruct v; try done.
  rewrite merge_both_dict. unfold _merge_data.
  assert (merge (merge_key merge_both) m m = Ok <$> m) as ->.
  { apply map_eq. intros k. rewrite lookup_merge_key, lookup_fmap.
    destruct (m !! k) as [w|] eqn:Hw; [|done]. simpl. f_equal. by eapply IH. }
  by rewrite (proj2 (collect_Ok _ m)).
Qed.

Lemma merge_data_diag (A : gmap string Json) : _merge_data A A = Ok A.
Proof.
  pose proof (merge_both_diag (JDict A)) as H. rewrite merge_both_dict in H.
  destruct (_merge_data A A); simplify_eq/=. done.
Qed.

Lemma merge_data_empty_r (A : gmap string Json) : _merge_data A ∅ = Ok A.
Proof.
  apply collect_Ok. apply map_eq. intros k.
  rewrite lookup_merge_key, lookup_fmap, lookup_empty. by destruct (A !! k).
Qed.

Lemma merge_data_disjoint (A B : gmap string Json) :
  dom A ## dom B → _merge_data A B = Ok (A ∪ B).
Proof.
  intros Hd. apply collect_Ok. apply map_eq. intros k.
  rewrite lookup_merge_key, lookup_fmap, lookup_union.
  destruct (A !! k) as [vp|] eqn:Hp, (B !! k) as [vs|] eqn:Hs; try done.
  exfalso. apply (Hd k); apply elem_of_dom; eauto.
Qed.

(** The entry of the merged tree at any key, when the merge succeeds. *)
Lemma merge_data_lookup (A B M : gmap string Json) k :
  _merge_data A B = Ok M →
  (Ok <$> M !! k) = merge_key merge_both (A !! k) (B !! k).
Proof.
  intros HM%collect_Ok. rewrite <-lookup_merge_key, HM. by rewrite lookup_fmap.
Qed.

Lemma merge_data_shared_raise (A B : gmap string Json) k vp vs e :
  A !! k = Some vp → B !! k = Some vs → merge_both vp vs = Raise e →
  _merge_data A B = Raise e.
Proof.
  intros Hp Hs Hr.
  destruct (collect_total (merge (merge_key merge_both) A B) k e) as [e' He'].
  { by rewrite lookup_merge_key, Hp, Hs; simpl; rewrite Hr. }
  unfold _merge_data. rewrite He'. f_equal.
  rewrite (merge_data_raises A B e' He'). symmetry. by eapply merge_both_raises.
Qed.

End MergeFacts.

Module MergeClaims.
Import Merge MergeFacts.

(** A campaign entry of the inventory and the detailed entry of the same
    campaign, as [fetch_inventory] merges them. *)
Definition inventory_entry : gmap string Json :=
  {[ "id" := JStr "c1";
     "self" := JDict {[ "isAccountConnected" := JBool true ]} ]}.

Definition details_entry : gmap string Json :=
  {[ "id" := JStr "c1";
     "self" := JDict {[ "__typename" := JStr "DropCampaignSelfEdge" ]};
     "status" := JStr "ACTIVE" ]}.

Example merge_entries :
  _merge_data inventory_entry details_entry =
  Ok {[ "id" := JStr "c1";
        "self" := JDict {[ "isAccountConnected" := JBool true;
                           "__typename" := JStr "DropCampaignSelfEdge" ]};
        "status" := JStr "ACTIVE" ]}.
Proof. vm_compute. reflexivity. Qed.

(** [True] against [1]: [isinstance(True, int)] holds, [isinstance(1, bool)]
    does not, and the merge raises. *)
Example merge_bool_int :
  _merge_data {[ "n" := JBool true ]} {[ "n" := JInt 1 ]} =
  Raise (MinerException "Inconsistent merge data").
Proof. vm_compute. reflexivity. Qed.

(** C1. The deep merge [_merge_data] satisfies the laws of the specification:
    merging a tree with itself or with the empty tree gives the tree back;
    for disjoint key sets the result is the union; at a key of both trees the
    merge recurses when both values are maps (an exception of the recursion is
    the exception of the whole merge), takes the value of A when the two
    values have the same class and are not maps, and raises [MinerException]
    when their classes differ; a key of one tree only keeps its value. *)
Theorem merge_data_laws :
  (∀ A, _merge_data A A = Ok A) ∧
  (∀ A, _merge_data A ∅ = Ok A) ∧
  (∀ A B, dom A ## dom B → _merge_data A B = Ok (A ∪ B)) ∧
  (∀ A B k vp vs, A !! k = Some vp → B !! k = Some vs →
     match vp, vs with
     | JDict p, JDict s =>
         match _merge_data p s with
         | Ok M' => ∀ M, _merge_data A B = Ok M → M !! k = Some (JDict M')
         | Raise e => _merge_data A B = Raise e
         end
     | _, _ =>
         if decide (type_of vp = type_of vs)
         then ∀ M, _merge_data A B = Ok M → M !! k = Some vp
         else _merge_data A B = Raise (MinerException "Inconsistent merge data")
     end) ∧
  (∀ A B M k, _merge_data A B = Ok M →
     (B !! k = None → M !! k = A !! k) ∧ (A !! k = None → M !! k = B !! k)).
Proof.
  split; [exact merge_data_diag|].
  split; [exact merge_data_empty_r|].
  split; [exact merge_data_disjoint|].
  split.
  - intros A B k vp vs Hp Hs.
    assert (∀ M v, merge_both vp vs = Ok v → _merge_data A B = Ok M →
                   M !! k = Some v) as Hok.
    { intros M v Hv HM. apply (merge_data_lookup _ _ _ k) in HM.
      rewrite Hp, Hs in HM. simpl in HM. rewrite Hv in HM.
      destruct (M !! k); by simplify_eq/=. }
    assert (type_of vp ≠ type_of vs →
            _merge_data A B = Raise (MinerException "Inconsistent merge data"))
      as Hbad.
    { intros Ht. eapply merge_data_shared_raise; [done..|].
      by apply merge_both_mismatch. }
    assert (type_of vp = type_of vs → type_of vp ≠ dict_t →
            ∀ M, _merge_data A B = Ok M → M !! k = Some vp) as Hleaf.
    { intros Ht Hd M. apply Hok. by apply merge_both_leaf. }
    destruct vp as [| | | | | |p];
      try (case_decide; [apply Hleaf; done|apply Hbad; done]).
    destruct vs as [| | | | | |s];
      try (case_decide; [done|apply Hbad; done]).
    destruct (_merge_data p s) as [M'|e] eqn:Hrec.
    + intros M. apply Hok. by rewrite merge_both_dict, Hrec.
    + eapply merge_data_shared_raise; [done..|].
      by rewrite merge_both_dict, Hrec.
  - intros A B M k HM. apply (merge_data_lookup _ _ _ k) in HM.
    split; intros Hnone; rewrite Hnone in HM;
      destruct (A !! k), (B !! k), (M !! k); by simplify_eq/=.
Qed.

Lemma merge_data_laws_witness :
  _merge_data inventory_entry inventory_entry = Ok inventory_entry ∧
  _merge_data inventory_entry ∅ = Ok inventory_entry ∧
  _merge_data {[ "id" := JStr "c1" ]} {[ "status" := JStr "ACTIVE" ]} =
    Ok ({[ "id" := JStr "c1" ]} ∪ {[ "status" := JStr "ACTIVE" ]}) ∧
  (∀ M, _merge_data inventory_entry details_entry = Ok M →
        M !! "self" = Some (JDict {[ "isAccountConnected" := JBool true;
                                     "__typename" := JStr "DropCampaignSelfEdge" ]})) ∧
  _merge_data {[ "n" := JBool true ]} {[ "n" := JInt 1 ]} =
    Raise (MinerException "Inconsistent merge data").
Proof.
  destruct merge_data_laws as (Hdiag & Hempty & Hdisj & Hshared & _).
  split; [apply Hdiag|]. split; [apply Hempty|].
  split.
  { apply Hdisj. rewrite !dom_singleton_L.
    apply disjoint_singleton_l. rewrite elem_of_singleton. discriminate. }
  split.
  - exact (Hshared inventory_entry details_entry "self"
             (JDict {[ "isAccountConnected" := JBool true ]})
             (JDict {[ "__typename" := JStr "DropCampaignSelfEdge" ]})
             eq_refl eq_refl).
  - exact (Hshared {[ "n" := JBool true ]} {[ "n" := JInt 1 ]} "n"
             (JBool true) (JInt 1) eq_refl eq_refl).
Defined.

End MergeClaims.

(** ** More on the deep merge *)

Module MergeMore.
Import Merge MergeFacts.

(** Two trees disagree when, at some path that both have, the classes of the
    two values differ. *)
Inductive disagree : Json → Json → Prop :=
  | disagree_here vp vs : type_of vp ≠ type_of vs → disagree vp vs
  | disagree_below p s k vp vs :
      p !! k = Some vp → s !! k = Some vs → disagree vp vs →
      disagree (JDict p) (JDict s).

Lemma merge_both_disagree (vp vs : Json) :
  (∃ e, merge_both vp vs = Raise e) ↔ disagree vp vs.
Proof.
  revert vs. induction vp as [vp IH] using Json_dict_ind. intros vs.
  destruct (decide (type_of vp = type_of vs)) as [Ht|Ht].
  2:{ split; [by constructor|]. rewrite merge_both_mismatch by done. eauto. }
  destruct (decide (type_of vp = dict_t)) as [Hd|Hd].
  2:{ rewrite merge_both_leaf by done. split; [by intros [??]|].
      inversion 1; simplify_eq/=. }
  destruct vp as [| | | | | |p]; try done. destruct vs as [| | | | | |s]; try done.
  rewrite merge_both_dict. split.
  - intros [e He]. destruct (_merge_data p s) as [M|e'] eqn:Hc; simplify_eq/=.
    apply collect_Raise in Hc as [k Hk]. rewrite lookup_merge_key in Hk.
    destruct (p !! k) as [w|] eqn:Hw, (s !! k) as [w'|] eqn:Hw'; simplify_eq/=.
    eapply disagree_below; [done..|]. eapply IH; eauto.
  - inversion 1 as [|p' s' k wp ws Hp Hs Hdis]; simplify_eq/=.
    apply (IH p k wp eq_refl Hp) in Hdis as [e He].
    rewrite (merge_data_shared_raise p s k wp ws e Hp Hs He). simpl. eauto.
Qed.

(** Merging the result again with either tree changes nothing. *)
Lemma merge_both_absorb (vp vs v : Json) :
  merge_both vp vs = Ok v → merge_both v vs = Ok v ∧ merge_both vp v = Ok v.
Proof.
  revert vs v. induction vp as [vp IH] using Json_dict_ind. intros vs v.
  destruct (decide (type_of vp = type_of vs)) as [Ht|Ht].
  2:{ by rewrite merge_both_mismatch. }
  destruct (decide (type_of vp = dict_t)) as [Hd|Hd].
  2:{ rewrite merge_both_leaf by done. intros [= <-].
      split; [by apply merge_both_leaf|apply merge_both_diag]. }
  destruct vp as [| | | | | |p]; try done. destruct vs as [| | | | | |s]; try done.
  rewrite merge_both_dict. destruct (_merge_data p s) as [M|e] eqn:HM; [|done].
  intros [= <-]. rewrite (merge_both_dict M s), (merge_both_dict p M).
  assert (_merge_data M s = Ok M ∧ _merge_data p M = Ok M) as [H1 H2];
    [|by rewrite H1, H2].
  split; apply collect_Ok, map_eq; intros k;
    rewrite lookup_merge_key, lookup_fmap;
    pose proof (merge_data_lookup p s M k HM) as Hk;
    destruct (p !! k) as [wp|] eqn:Hp, (s !! k) as [ws|] eqn:Hs,
      (M !! k) as [w|] eqn:Hw; simplify_eq/=; try done;
    try (f_equal; apply merge_both_diag).
  - f_equal. symmetry in Hk. by apply (IH p k wp eq_refl Hp) in Hk as [? _].
  - f_equal. symmetry in Hk. by apply (IH p k wp eq_refl Hp) in Hk as [_ ?].
Qed.

(** X1. [_merge_data] with an empty primary tree returns the secondary tree, and
    the keys of a merged tree are the keys of the two trees together. *)
Theorem merge_data_keys (A B M : gmap string Json) :
  _merge_data ∅ B = Ok B ∧
  (_merge_data A B = Ok M → dom M = dom A ∪ dom B).
Proof.
  split.
  - apply collect_Ok, map_eq. intros k.
    rewrite lookup_merge_key, lookup_fmap, lookup_empty. by destruct (B !! k).
  - intros HM. apply set_eq. intros k.
    rewrite elem_of_union, !elem_of_dom.
    pose proof (merge_data_lookup A B M k HM) as Hk.
    destruct (A !! k), (B !! k), (M !! k); simplify_eq/=;
      rewrite <-?not_eq_None_Some; naive_solver.
Qed.

(** X2. [_merge_data] raises exactly when the two trees disagree on the class of
    a value at some path that both have, and then it raises the
    [MinerException] of an inconsistent merge; otherwise it returns a tree. *)
Theorem merge_data_raises_iff (A B : gmap string Json) :
  (_merge_data A B = Raise (MinerException "Inconsistent merge data")
   ↔ disagree (JDict A) (JDict B)) ∧
  (¬ disagree (JDict A) (JDict B) → ∃ M, _merge_data A B = Ok M).
Proof.
  pose proof (merge_both_disagree (JDict A) (JDict B)) as Hd.
  rewrite merge_both_dict in Hd. split; [split|].
  - intros He. apply Hd. rewrite He. simpl. eauto.
  - intros [e He]%Hd. destruct (_merge_data A B) as [M|e'] eqn:HM; [done|].
    by rewrite (merge_data_raises A B e' HM).
  - intros Hn. destruct (_merge_data A B) as [M|e'] eqn:HM; [eauto|].
    destruct Hn. apply Hd. simpl. eauto.
Qed.

(** X3. A merge that succeeded is absorbed: merging the result with the primary
    or with the secondary tree again returns the result. *)
Theorem merge_data_absorbs (A B M : gmap string Json) :
  _merge_data A B = Ok M → _merge_data M B = Ok M ∧ _merge_data A M = Ok M.
Proof.
  intros HM.
  destruct (merge_both_absorb (JDict A) (JDict B) (JDict M)) as [H1 H2].
  { by rewrite merge_both_dict, HM. }
  rewrite merge_both_dict in H1, H2.
  destruct (_merge_data M B), (_merge_data A M); by simplify_eq/=.
Qed.

Lemma merge_data_absorbs_witness :
  _merge_data MergeClaims.inventory_entry MergeClaims.inventory_entry
  = Ok MergeClaims.inventory_entry.
Proof.
  exact (proj1 (merge_data_absorbs _ _ _ (merge_data_diag MergeClaims.inventory_entry))).
Defined.

End MergeMore.

(** ** The pub/sub pool ([twitch/websocket.py]) *)

(** Modelled from the spec: [WebsocketTopic] is declared in [constants.py],
    which is not among the sources. A topic is [(category, kind, target_id,
    handler)]; equality and hashing use the first three only, which the topic
    carries in its string encoding [category-kind.target_id] (the encoding is
    one-to-one by the round-trip law of the specification). *)
Record WebsocketTopic : Type := {
  topic_str : string;
  topic_handler : nat;
}.

(** [str(topic)] *)
Definition str (t : WebsocketTopic) : string := topic_str t.

(** The build-time constants of [constants.py]. *)
Class Limits : Type := {
  MAX_WEBSOCKETS : nat;
  WS_TOPICS_LIMIT : nat;
}.

(** A Python [set] of topics is modelled by the list of its elements in the
    order in which [pop()] hands them out. That order depends on the hash
    table: it is an arbitrary permutation, the same for the whole run. *)
Class SetOrder : Type := {
  set_iter : list WebsocketTopic → list WebsocketTopic;
  set_iter_perm : ∀ l, set_iter l ≡ₚ l;
}.

(** The elements of an iterable of topics without the repeats: a topic equal
    to an earlier one is not added. *)
Fixpoint distinct (topics : list WebsocketTopic) : list WebsocketTopic :=
  match topics with
  | [] => []
  | t :: rest => t :: filter (λ u, str u ≠ str t) (distinct rest)
  end.

(** [set(topics)] *)
Definition py_set `{SetOrder} (topics : list WebsocketTopic) : list WebsocketTopic :=
  set_iter (distinct topics).

(** [topics_set.difference_update(others)] *)
Definition difference_update (topics_set others : list WebsocketTopic)
    : list WebsocketTopic :=
  filter (λ t, str t ∉ str <$> others) topics_set.

Module Websocket.

(** One connection: its index, its topic table, the [_topics_changed] event
    and whether its task has been started. *)
Record t : Type := {
  _idx : nat;
  topics : gmap string WebsocketTopic;
  _topics_changed : bool;
  _handle_task : bool;
}.

(** [Websocket(pool, index)], followed by [start_nowait()] when the pool is
    running. *)
Definition new (index : nat) (running : bool) : t :=
  {| _idx := index; topics := ∅; _topics_changed := false;
     _handle_task := running |}.

(** [list(self.topics.values())] *)
Definition values (ws : t) : list WebsocketTopic := (map_to_list (topics ws)).*2.

(** The [while] loop of [add_topics]: the table, the set and [changed]. *)
Fixpoint add_topics_loop `{Limits} (tbl : gmap string WebsocketTopic)
    (topics_set : list WebsocketTopic) (changed : bool)
    : gmap string WebsocketTopic * list WebsocketTopic * bool :=
  match topics_set with
  | topic :: rest =>
      if decide (size tbl < WS_TOPICS_LIMIT)
      then add_topics_loop (<[str topic := topic]> tbl) rest true
      else (tbl, topics_set, changed)
  | [] => (tbl, [], changed)
  end.

(** [add_topics] returns the connection and what is left of the set, which
    the method changes in place. *)
Definition add_topics `{Limits} (ws : t) (topics_set : list WebsocketTopic)
    : t * list WebsocketTopic :=
  let '(tbl, rest, changed) := add_topics_loop (topics ws) topics_set false in
  ({| _idx := _idx ws; topics := tbl;
      _topics_changed := _topics_changed ws || changed;
      _handle_task := _handle_task ws |}, rest).

Definition remove_topics (ws : t) (topics_set : gset string) : t * gset string :=
  let existing := topics_set ∩ dom (topics ws) in
  if decide (existing = ∅) then (ws, topics_set)
  else
    ({| _idx := _idx ws;
        topics := filter (λ kv, kv.1 ∉ existing) (topics ws);
        _topics_changed := true;
        _handle_task := _handle_task ws |},
     topics_set ∖ existing).

End Websocket.

Module WebsocketPool.

Record t : Type := {
  _running : bool;
  websockets : list Websocket.t;
}.

(** [WebsocketPool(twitch)] *)
Definition new : t := {| _running := false; websockets := [] |}.

(** The topics of every connection, as [add_topics] chains them. *)
Definition all_values (wss : list Websocket.t) : list WebsocketTopic :=
  wss ≫= Websocket.values.

(** The loop [for ws_idx in range(MAX_WEBSOCKETS)] of [add_topics], with [n]
    iterations to go. The second component is the exception, if the loop
    ends with topics left. *)
Fixpoint add_topics_loop `{Limits} (n ws_idx : nat) (running : bool)
    (wss : list Websocket.t) (topics_set : list WebsocketTopic)
    : list Websocket.t * option exn :=
  match n with
  | 0 => (wss, Some (MinerException "Maximum topics limit has been reached"))
  | S n' =>
      match wss !! ws_idx with
      | Some ws =>
          (* just read it back *)
          let '(ws', rest) := Websocket.add_topics ws topics_set in
          let wss' := <[ws_idx := ws']> wss in
          match rest with
          | [] => (wss', None)
          | _ => add_topics_loop n' (S ws_idx) running wss' rest
          end
      | None =>
          (* create new *)
          let ws := Websocket.new ws_idx running in
          let '(ws', rest) := Websocket.add_topics ws topics_set in
          let wss' := wss ++ [ws'] in
          match rest with
          | [] => (wss', None)
          | _ => add_topics_loop n' (S ws_idx) running wss' rest
          end
      end
  end.

Definition add_topics `{Limits, SetOrder} (pool : t) (topics : list WebsocketTopic)
    : t * option exn :=
  match py_set topics with
  | [] => (pool, None)
  | topics_set =>
      match difference_update topics_set (all_values (websockets pool)) with
      | [] => (pool, None)
      | topics_set =>
          let '(wss, e) :=
            add_topics_loop MAX_WEBSOCKETS 0 (_running pool) (websockets pool)
              topics_set in
          ({| _running := _running pool; websockets := wss |}, e)
      end
  end.

(** [for ws in self.websockets: ws.remove_topics(topics_set)] *)
Fixpoint remove_each (wss : list Websocket.t) (topics_set : gset string)
    : list Websocket.t :=
  match wss with
  | [] => []
  | ws :: rest =>
      let '(ws', topics_set') := Websocket.remove_topics ws topics_set in
      ws' :: remove_each rest topics_set'
  end.

(** [sum(len(ws.topics) for ws in self.websockets)] *)
Definition count (wss : list Websocket.t) : nat :=
  sum_list ((λ ws, size (Websocket.topics ws)) <$> wss).

(** [self.websockets.pop()] *)
Definition pop (wss : list Websocket.t) : option (Websocket.t * list Websocket.t) :=
  match last wss with
  | Some ws => Some (ws, take (length wss - 1) wss)
  | None => None
  end.

(** The test of the [while True] loop of [remove_topics], on Python's
    integers: with no connection the right-hand side is negative. *)
Definition more_than_needed `{Limits} (wss : list Websocket.t) : Prop :=
  (Z.of_nat (count wss) ≤ (Z.of_nat (length wss) - 1) * Z.of_nat WS_TOPICS_LIMIT)%Z.

#[global] Instance more_than_needed_dec `{Limits} wss : Decision (more_than_needed wss).
Proof. unfold more_than_needed. apply _. Defined.

Record recycling : Type := {
  kept : list Websocket.t;
  recycled_topics : list WebsocketTopic;
  stopped : list Websocket.t;
  failure : option exn;
}.

(** The [while True] loop of [remove_topics]. [n] is the number of
    connections: each iteration pops one, and [pop()] on the empty list
    raises [IndexError]. [stopped] lists the connections on which
    [stop_nowait(remove=True)] was called. *)
Fixpoint recycle `{Limits} (n : nat) (wss : list Websocket.t)
    (recycled : list WebsocketTopic) (stopped : list Websocket.t) : recycling :=
  if decide (more_than_needed wss) then
    match n, pop wss with
    | S n', Some (ws, wss') =>
        recycle n' wss' (recycled ++ Websocket.values ws) (stopped ++ [ws])
    | _, _ =>
        {| kept := wss; recycled_topics := recycled; stopped := stopped;
           failure := Some IndexError |}
    end
  else
    {| kept := wss; recycled_topics := recycled; stopped := stopped;
       failure := None |}.

Record removal : Type := {
  pool_after : t;
  stopped_connections : list Websocket.t;
  raised : option exn;
}.

Definition remove_topics `{Limits, SetOrder} (pool : t) (topics : list string)
    : removal :=
  let topics_set : gset string := list_to_set topics in
  if decide (topics_set = ∅) then
    {| pool_after := pool; stopped_connections := []; raised := None |}
  else
    let wss := remove_each (websockets pool) topics_set in
    let r := recycle (length wss) wss [] [] in
    let pool' := {| _running := _running pool; websockets := kept r |} in
    match failure r, recycled_topics r with
    | Some e, _ =>
        {| pool_after := pool'; stopped_connections := stopped r;
           raised := Some e |}
    | None, [] =>
        {| pool_after := pool'; stopped_connections := stopped r;
           raised := None |}
    | None, recycled =>
        let '(pool'', e) := add_topics pool' recycled in
        {| pool_after := pool''; stopped_connections := stopped r;
           raised := e |}
    end.

(** The calls on the pool, and the pool after a sequence of them. A call
    that raises leaves the pool as it was when the exception left it. *)
Inductive call : Type :=
  | add_topics_call (topics : list WebsocketTopic)
  | remove_topics_call (topics : list string).

Definition do_call `{Limits, SetOrder} (pool : t) (c : call) : t :=
  match c with
  | add_topics_call topics => (add_topics pool topics).1
  | remove_topics_call topics => pool_after (remove_topics pool topics)
  end.

Definition run `{Limits, SetOrder} (running : bool) (calls : list call) : t :=
  foldl do_call {| _running := running; websockets := [] |} calls.

(** The topic strings held by the connections. *)
Definition pool_keys (wss : list Websocket.t) : gset string :=
  ⋃ ((λ ws, dom (Websocket.topics ws)) <$> wss).

End WebsocketPool.

Module PoolFacts.
Import WebsocketPool.

(** The strings of a list of topics, as a set. *)
Definition strs (l : list WebsocketTopic) : gset string := list_to_set (str <$> l).

(** Each key of a table is the string of its topic. *)
Definition keyed (ws : Websocket.t) : Prop :=
  map_Forall (λ k t, k = str t) (Websocket.topics ws).

(** No two connections hold the same topic string. *)
Fixpoint tables_disjoint (wss : list Websocket.t) : Prop :=
  match wss with
  | [] => True
  | ws :: rest => dom (Websocket.topics ws) ## pool_keys rest ∧ tables_disjoint rest
  end.

Section sets.
Context `{SetOrder}.

Lemma elem_of_strs (l : list WebsocketTopic) s :
  s ∈ strs l ↔ ∃ t, t ∈ l ∧ str t = s.
Proof.
  unfold strs. rewrite elem_of_list_to_set, list_elem_of_fmap. naive_solver.
Qed.

Lemma strs_nil : strs [] = ∅.
Proof. done. Qed.

Lemma strs_cons t l : strs (t :: l) = {[ str t ]} ∪ strs l.
Proof. done. Qed.

Lemma strs_app l1 l2 : strs (l1 ++ l2) = strs l1 ∪ strs l2.
Proof. unfold strs. by rewrite fmap_app, list_to_set_app_L. Qed.

Lemma size_strs (l : list WebsocketTopic) :
  NoDup (str <$> l) → size (strs l) = length l.
Proof. intros Hnd. unfold strs. by rewrite size_list_to_set, length_fmap. Qed.

Lemma distinct_elem (l : list WebsocketTopic) s :
  s ∈ str <$> distinct l ↔ s ∈ str <$> l.
Proof.
  induction l as [|t l IH]; [done|]. simpl.
  rewrite !elem_of_cons, <-IH, !list_elem_of_fmap.
  setoid_rewrite list_elem_of_filter.
  destruct (decide (s = str t)) as [->|Hne]; [naive_solver|].
  split; [naive_solver|]. intros [?|(u & -> & Hu)]; [done|].
  right. exists u. naive_solver.
Qed.

Lemma distinct_NoDup (l : list WebsocketTopic) : NoDup (str <$> distinct l).
Proof.
  induction l as [|t l IH]; simpl; [constructor|].
  constructor.
  - rewrite list_elem_of_fmap. intros (u & Hu & Hin).
    apply list_elem_of_filter in Hin as [Hne _]. congruence.
  - eapply sublist_NoDup; [done|]. apply fmap_sublist, sublist_filter.
Qed.

Lemma py_set_NoDup (l : list WebsocketTopic) : NoDup (str <$> py_set l).
Proof.
  unfold py_set. rewrite (set_iter_perm (distinct l)). apply distinct_NoDup.
Qed.

Lemma py_set_strs (l : list WebsocketTopic) : strs (py_set l) = strs l.
Proof.
  apply set_eq. intros s. unfold strs, py_set.
  rewrite !elem_of_list_to_set, (set_iter_perm (distinct l)).
  apply distinct_elem.
Qed.

Lemma difference_update_NoDup (ts others : list WebsocketTopic) :
  NoDup (str <$> ts) → NoDup (str <$> difference_update ts others).
Proof.
  intros Hnd. eapply sublist_NoDup; [done|].
  apply fmap_sublist, sublist_filter.
Qed.

Lemma difference_update_strs (ts others : list WebsocketTopic) :
  strs (difference_update ts others) = strs ts ∖ strs others.
Proof.
  apply set_eq. intros s. rewrite elem_of_difference, !elem_of_strs.
  unfold difference_update. setoid_rewrite list_elem_of_filter.
  split.
  - intros (t & [Hn Ht] & <-). split; [eauto|].
    intros (u & Hu & Heq). apply Hn. rewrite <-Heq.
    apply list_elem_of_fmap. eauto.
  - intros [(t & Ht & <-) Hn]. exists t. split; [|done]. split; [|done].
    intros Hin. apply Hn. apply list_elem_of_fmap in Hin as (u & ? & ?). eauto.
Qed.

End sets.

(** *** Tables *)

Lemma pool_keys_nil : pool_keys [] = ∅.
Proof. done. Qed.

Lemma pool_keys_cons ws wss :
  pool_keys (ws :: wss) = dom (Websocket.topics ws) ∪ pool_keys wss.
Proof. done. Qed.

Lemma pool_keys_app wss1 wss2 :
  pool_keys (wss1 ++ wss2) = pool_keys wss1 ∪ pool_keys wss2.
Proof.
  unfold pool_keys. rewrite fmap_app. apply leibniz_equiv, union_list_app.
Qed.

Lemma elem_of_pool_keys wss s :
  s ∈ pool_keys wss ↔ ∃ i ws, wss !! i = Some ws ∧ s ∈ dom (Websocket.topics ws).
Proof.
  unfold pool_keys. rewrite elem_of_union_list. split.
  - intros (X & HX & Hs). apply list_elem_of_fmap in HX as (ws & -> & Hws).
    apply list_elem_of_lookup in Hws as [i Hi]. eauto.
  - intros (i & ws & Hi & Hs). exists (dom (Websocket.topics ws)).
    split; [|done]. apply list_elem_of_fmap. exists ws. split; [done|].
    by eapply list_elem_of_lookup_2.
Qed.

Lemma count_nil : count [] = 0.
Proof. done. Qed.

Lemma count_cons ws wss : count (ws :: wss) = size (Websocket.topics ws) + count wss.
Proof. done. Qed.

Lemma count_app wss1 wss2 : count (wss1 ++ wss2) = count wss1 + count wss2.
Proof.
  induction wss1 as [|ws wss1 IH]; [done|].
  simpl. rewrite !count_cons, IH. lia.
Qed.

Lemma tables_disjoint_app wss1 wss2 :
  tables_disjoint (wss1 ++ wss2) ↔
  tables_disjoint wss1 ∧ tables_disjoint wss2 ∧ pool_keys wss1 ## pool_keys wss2.
Proof.
  induction wss1 as [|ws wss1 IH]; simpl.
  - rewrite pool_keys_nil. set_solver.
  - rewrite IH, pool_keys_app, pool_keys_cons. set_solver.
Qed.

(** The same, by positions: a topic string is in at most one table. *)
Lemma tables_disjoint_lookup wss :
  tables_disjoint wss ↔
  ∀ i j wi wj s, wss !! i = Some wi → wss !! j = Some wj →
    s ∈ dom (Websocket.topics wi) → s ∈ dom (Websocket.topics wj) → i = j.
Proof.
  induction wss as [|ws wss IH]; simpl.
  - split; [|done]. intros _ i j wi wj s Hi. by rewrite lookup_nil in Hi.
  - rewrite IH. split.
    + intros [Hd Hrest] i j wi wj s Hi Hj Hsi Hsj.
      destruct i as [|i], j as [|j]; simplify_eq/=; try done.
      * exfalso. apply (Hd s); [done|]. apply elem_of_pool_keys. eauto.
      * exfalso. apply (Hd s); [done|]. apply elem_of_pool_keys. eauto.
      * f_equal. eauto.
    + intros Hall. split.
      * intros s Hs (j & wj & Hj & Hsj)%elem_of_pool_keys.
        by specialize (Hall 0 (S j) ws wj s eq_refl Hj Hs Hsj).
      * intros i j wi wj s Hi Hj Hsi Hsj.
        by specialize (Hall (S i) (S j) wi wj s Hi Hj Hsi Hsj) as [= ->].
Qed.

Lemma count_pool_keys wss :
  tables_disjoint wss → count wss = size (pool_keys wss).
Proof.
  induction wss as [|ws wss IH]; [done|]. intros [Hd Hrest].
  rewrite count_cons, pool_keys_cons, size_union by done.
  by rewrite size_dom, IH.
Qed.

Lemma values_strs ws :
  keyed ws → strs (Websocket.values ws) = dom (Websocket.topics ws).
Proof.
  intros Hk. apply set_eq. intros s.
  rewrite elem_of_strs, elem_of_dom. unfold Websocket.values. split.
  - intros (t & Ht & <-). apply list_elem_of_fmap in Ht as ([k t'] & -> & Hin).
    apply elem_of_map_to_list in Hin. simpl. rewrite <-(Hk _ _ Hin). eauto.
  - intros [t Ht]. exists t. split; [|symmetry; by apply (Hk _ _ Ht)].
    apply list_elem_of_fmap. exists (s, t). split; [done|].
    by apply elem_of_map_to_list.
Qed.

Lemma all_values_strs wss :
  Forall keyed wss → strs (all_values wss) = pool_keys wss.
Proof.
  unfold all_values. induction 1 as [|ws wss Hk _ IH]; [done|].
  rewrite bind_cons, strs_app, pool_keys_cons, IH. by rewrite values_strs.
Qed.


Section limits.
Context `{Limits}.

Definition within_limit (ws : Websocket.t) : Prop :=
  size (Websocket.topics ws) ≤ WS_TOPICS_LIMIT.

(** What the loop of [Websocket.add_topics] does: it takes topics from the
    front of the set, until the set is empty or the table is full. *)
Lemma ws_add_topics_loop_spec tbl ts changed :
  ∃ tbl' taken rest changed',
    Websocket.add_topics_loop tbl ts changed = (tbl', rest, changed') ∧
    ts = taken ++ rest ∧
    dom tbl' = dom tbl ∪ strs taken ∧
    (map_Forall (λ k t, k = str t) tbl → map_Forall (λ k t, k = str t) tbl') ∧
    (rest ≠ [] → WS_TOPICS_LIMIT ≤ size tbl') ∧
    (size tbl ≤ WS_TOPICS_LIMIT → size tbl' ≤ WS_TOPICS_LIMIT) ∧
    (NoDup (str <$> ts) → strs ts ## dom tbl →
     size tbl' = size tbl + length taken).
Proof.
  revert tbl changed. induction ts as [|t ts IH]; intros tbl changed; simpl.
  - exists tbl, [], [], changed. rewrite strs_nil.
    repeat split; try done; try set_solver; intros; simpl; lia.
  - case_decide as Hlt.
    + destruct (IH (<[str t:=t]> tbl) true)
        as (tbl' & taken & rest & changed' & -> & -> & Hdom & Hkey & Hfull & Hlim & Hsize).
      exists tbl', (t :: taken), rest, changed'.
      split; [done|]. split; [done|]. split.
      { rewrite Hdom, dom_insert_L, strs_cons. set_solver. }
      split.
      { intros Hk. apply Hkey. by apply map_Forall_insert_2. }
      split; [done|]. split.
      { intros _. apply Hlim. rewrite map_size_insert.
        destruct (tbl !! str t); simpl; lia. }
      intros Hnd Hdisj. simpl in Hnd. apply NoDup_cons in Hnd as [Hnotin Hnd]. rewrite strs_cons in Hdisj.
      rewrite Hsize.
      * rewrite map_size_insert_None; [simpl; lia|].
        apply not_elem_of_dom. set_solver.
      * done.
      * rewrite dom_insert_L.
        assert (str t ∉ strs (taken ++ rest)).
        { unfold strs. by rewrite elem_of_list_to_set. }
        set_solver.
    + exists tbl, [], (t :: ts), changed. rewrite strs_nil.
      split; [done|]. split; [done|]. split; [set_solver|]. split; [done|].
      split; [intros _; lia|]. split; [done|]. intros; simpl; lia.
Qed.

Lemma ws_add_topics_spec ws ts :
  ∃ ws' taken rest,
    Websocket.add_topics ws ts = (ws', rest) ∧
    ts = taken ++ rest ∧
    dom (Websocket.topics ws') = dom (Websocket.topics ws) ∪ strs taken ∧
    (keyed ws → keyed ws') ∧
    (rest ≠ [] → WS_TOPICS_LIMIT ≤ size (Websocket.topics ws')) ∧
    (within_limit ws → within_limit ws') ∧
    (NoDup (str <$> ts) → strs ts ## dom (Websocket.topics ws) →
     size (Websocket.topics ws') = size (Websocket.topics ws) + length taken).
Proof.
  unfold Websocket.add_topics.
  destruct (ws_add_topics_loop_spec (Websocket.topics ws) ts false)
    as (tbl' & taken & rest & changed' & -> & Hrest).
  eexists _, taken, rest. split; [done|]. exact Hrest.
Qed.

(** The topics that fit in the connections the loop of [add_topics] still
    visits: the first [n] of [post], and new ones for the rest of the [n]
    iterations. *)
Definition free (n : nat) (post : list Websocket.t) : nat :=
  sum_list ((λ ws, WS_TOPICS_LIMIT - size (Websocket.topics ws)) <$> take n post)
  + (n - length post) * WS_TOPICS_LIMIT.

Lemma free_cons n ws post :
  free (S n) (ws :: post) =
  (WS_TOPICS_LIMIT - size (Websocket.topics ws)) + free n post.
Proof. unfold free. rewrite firstn_cons, fmap_cons. simpl. lia. Qed.

Lemma free_nil n : free (S n) [] = WS_TOPICS_LIMIT + free n [].
Proof. unfold free. rewrite !take_nil. simpl. lia. Qed.


Lemma tables_disjoint_cons_step ws ws' taken rest post0 r :
  dom (Websocket.topics ws') = dom (Websocket.topics ws) ∪ strs taken →
  NoDup (str <$> taken ++ rest) →
  strs (taken ++ rest) ## dom (Websocket.topics ws) ∪ pool_keys post0 →
  dom (Websocket.topics ws) ## pool_keys post0 →
  pool_keys r ⊆ pool_keys post0 ∪ strs rest →
  tables_disjoint r →
  tables_disjoint (ws' :: r).
Proof.
  intros Hdom Hnd Hdisj Hws Hr Hdr. split; [|done].
  rewrite Hdom. rewrite strs_app in Hdisj.
  assert (strs taken ## strs rest).
  { rewrite fmap_app in Hnd. apply NoDup_app in Hnd as (_ & Hnd & _).
    intros s Ht Hr'. unfold strs in Ht, Hr'.
    rewrite elem_of_list_to_set in Ht, Hr'. by eapply Hnd. }
  set_solver.
Qed.

#[local] Arguments Websocket.add_topics : simpl never.
#[local] Arguments Websocket.new : simpl never.

Lemma add_topics_loop_spec n : ∀ pre post ts running,
  ts ≠ [] → NoDup (str <$> ts) → strs ts ## pool_keys post →
  Forall within_limit post →
  ∃ post' e,
    add_topics_loop n (length pre) running (pre ++ post) ts = (pre ++ post', e) ∧
    Forall within_limit post' ∧
    length post ≤ length post' ∧
    (length post ≤ n → length post' ≤ n) ∧
    (Forall keyed post → Forall keyed post') ∧
    (tables_disjoint post → tables_disjoint post') ∧
    pool_keys post ⊆ pool_keys post' ∧
    pool_keys post' ⊆ pool_keys post ∪ strs ts ∧
    (e = None → pool_keys post' = pool_keys post ∪ strs ts) ∧
    (e = None ∨
     e = Some (MinerException "Maximum topics limit has been reached")) ∧
    (e ≠ None ↔ free n post < length ts) ∧
    count post ≤ count post' ∧
    (0 < WS_TOPICS_LIMIT → length post < length post' →
     (length post' - 1) * WS_TOPICS_LIMIT < count post') ∧
    (e ≠ None → length post ≤ n →
     length post' = n ∧
     Forall (λ ws, size (Websocket.topics ws) = WS_TOPICS_LIMIT) post').
Proof.
  induction n as [|n IH]; intros pre post ts running Hne Hnd Hdisj Hlim.
  { exists post, (Some (MinerException "Maximum topics limit has been reached")).
    simpl. repeat split; try done; try set_solver; try lia; try naive_solver.
    all: try (intros _; unfold free; rewrite take_0; simpl;
              destruct ts; simpl; [done|lia]).
    all: destruct post; simpl in *; [done|lia]. }
  simpl. destruct post as [|ws post0].
  - (* every connection is full: a new one *)
    rewrite app_nil_r, lookup_ge_None_2 by lia.
    set (ws := Websocket.new (length pre) running).
    destruct (ws_add_topics_spec ws ts)
      as (ws' & taken & rest & -> & -> & Hdom & Hkey & Hfull & Hwl & Hsize).
    assert (within_limit ws') as Hwl'.
    { apply Hwl. unfold within_limit, ws. simpl. rewrite map_size_empty. lia. }
    assert (size (Websocket.topics ws') = length taken) as Hsz.
    { rewrite Hsize; [by unfold ws; simpl; rewrite map_size_empty| done |].
      unfold ws. simpl. rewrite dom_empty_L. set_solver. }
    assert (dom (Websocket.topics ws') = strs taken) as Hdom'.
    { rewrite Hdom. unfold ws. simpl. rewrite dom_empty_L. set_solver. }
    assert (keyed ws) as Hkws.
    { unfold keyed, ws. simpl. apply map_Forall_empty. }
    destruct rest as [|t rest].
    + exists [ws'], None. rewrite app_nil_r in *.
      rewrite pool_keys_cons, pool_keys_nil, count_cons, count_nil, free_nil.
      split; [done|]. split; [by constructor|]. split; [simpl; lia|].
      split; [simpl; lia|]. split.
      { intros _. constructor; [|done]. by apply Hkey. }
      split; [simpl; rewrite pool_keys_nil; set_solver|]. split; [set_solver|]. split; [set_solver|].
      split; [set_solver|]. split; [by left|]. split.
      { split; [done|]. unfold within_limit in Hwl'. lia. }
      split; [lia|]. split; [|done].
      intros ? _. simpl. destruct taken; simpl in *; [done|lia].
    + destruct (IH (pre ++ [ws']) [] (t :: rest) running)
        as (r & e & Heq & Hrlim & Hrlen & Hrn & Hrkey & Hrdisj & Hrsub1 & Hrsub2
            & Hrok & Hre & Hrfree & Hrcount & Hrcompact & Hrfull); [done| | |done|].
      { rewrite fmap_app in Hnd. by apply NoDup_app in Hnd as (_ & _ & ?). }
      { rewrite pool_keys_nil. set_solver. }
      rewrite length_app, Nat.add_1_r, app_nil_r, <-(assoc_L (++)) in Heq.
      simpl in Heq. exists (ws' :: r), e.
      rewrite pool_keys_cons, !pool_keys_nil, count_cons, count_nil, free_nil,
        strs_app in *.
      split; [done|]. split; [by constructor|]. split; [simpl; lia|].
      split; [simpl in *; lia|]. split.
      { intros _. constructor; [by apply Hkey|]. by apply Hrkey. }
      split.
      { intros _. apply (tables_disjoint_cons_step ws ws' taken (t :: rest) [] r);
          rewrite ?pool_keys_nil, ?strs_app; try done; [set_solver..|by apply Hrdisj]. }
      split; [set_solver|]. split; [set_solver|].
      split; [intros He; rewrite (Hrok He); set_solver|].
      split; [done|]. split.
      { rewrite Hrfree, length_app. specialize (Hfull ltac:(done)).
        unfold within_limit in Hwl'. lia. }
      split; [lia|]. split.
      { intros Hpos _. simpl. rewrite Nat.sub_0_r.
        specialize (Hfull ltac:(done)).
        destruct r as [|w r]; [simpl; rewrite count_nil; lia|].
        specialize (Hrcompact Hpos ltac:(simpl; lia)). simpl in *.
        rewrite Nat.sub_0_r in Hrcompact. lia. }
      intros He' _. destruct (Hrfull He' ltac:(simpl; lia)) as [Hl Hall].
      specialize (Hfull ltac:(done)). unfold within_limit in Hwl'.
      split; [simpl; lia|]. constructor; [lia|done].
  - (* just read it back *)
    rewrite list_lookup_middle by done.
    apply Forall_cons in Hlim as [Hws Hlim]. rewrite pool_keys_cons in Hdisj.
    destruct (ws_add_topics_spec ws ts)
      as (ws' & taken & rest & -> & -> & Hdom & Hkey & Hfull & Hwl & Hsize).
    specialize (Hwl Hws). specialize (Hsize Hnd ltac:(set_solver)).
    assert (<[length pre:=ws']> (pre ++ ws :: post0) = pre ++ ws' :: post0) as ->.
    { rewrite insert_app_r_alt, Nat.sub_diag by lia. done. }
    destruct rest as [|t rest].
    + exists (ws' :: post0), None. rewrite app_nil_r in *.
      rewrite !pool_keys_cons, !count_cons, free_cons.
      split; [done|]. split; [by constructor|]. split; [simpl; lia|].
      split; [simpl; lia|]. split.
      { intros [??]%Forall_cons. constructor; auto. }
      split.
      { intros [Hd ?]. split; [|done]. rewrite Hdom. set_solver. }
      split; [set_solver|]. split; [set_solver|]. split; [set_solver|].
      split; [by left|]. split.
      { split; [done|]. unfold within_limit in Hwl. lia. }
      split; [lia|]. split; [simpl; lia|done].
    + destruct (IH (pre ++ [ws']) post0 (t :: rest) running)
        as (r & e & Heq & Hrlim & Hrlen & Hrn & Hrkey & Hrdisj & Hrsub1 & Hrsub2
            & Hrok & Hre & Hrfree & Hrcount & Hrcompact & Hrfull); [done| | |done|].
      { rewrite fmap_app in Hnd. by apply NoDup_app in Hnd as (_ & _ & ?). }
      { rewrite strs_app in Hdisj. set_solver. }
      rewrite length_app, Nat.add_1_r, <-!(assoc_L (++)) in Heq.
      simpl in Heq. exists (ws' :: r), e.
      rewrite !pool_keys_cons, !count_cons, free_cons, strs_app in *.
      split; [done|]. split; [by constructor|]. split; [simpl; lia|].
      split; [simpl in *; lia|]. split.
      { intros [??]%Forall_cons. constructor; auto. }
      split.
      { intros [Hd Hd0]. apply (tables_disjoint_cons_step ws ws' taken (t :: rest) post0 r);
          rewrite ?strs_app; try done; [set_solver..|by apply Hrdisj]. }
      split; [set_solver|]. split; [set_solver|].
      split; [intros He; rewrite (Hrok He); set_solver|].
      split; [done|]. split.
      { rewrite Hrfree, length_app. specialize (Hfull ltac:(done)).
        unfold within_limit in Hwl, Hws. lia. }
      split; [lia|]. split.
      { intros Hpos Hlen. simpl in *. rewrite Nat.sub_0_r.
        specialize (Hfull ltac:(done)).
        specialize (Hrcompact Hpos ltac:(lia)).
        destruct r as [|w r]; [simpl in *; lia|]. simpl in *.
        rewrite Nat.sub_0_r in Hrcompact. lia. }
      intros He' Hlen. simpl in Hlen.
      destruct (Hrfull He' ltac:(lia)) as [Hl Hall].
      specialize (Hfull ltac:(done)). unfold within_limit in Hwl.
      split; [simpl; lia|]. constructor; [lia|done].
Qed.


Lemma free_count n wss :
  length wss ≤ n → Forall within_limit wss →
  free n wss + count wss = n * WS_TOPICS_LIMIT.
Proof.
  revert n. induction wss as [|ws wss IH]; intros n Hn Hlim.
  - unfold free. rewrite take_nil, count_nil. simpl. lia.
  - destruct n as [|n]; simpl in Hn; [lia|].
    apply Forall_cons in Hlim as [Hws Hlim]. unfold within_limit in Hws.
    rewrite free_cons, count_cons. specialize (IH n ltac:(lia) Hlim). lia.
Qed.

Lemma count_le_limit wss :
  Forall within_limit wss → count wss ≤ length wss * WS_TOPICS_LIMIT.
Proof.
  induction 1 as [|ws wss Hws _ IH]; [done|].
  rewrite count_cons. unfold within_limit in Hws. simpl. lia.
Qed.

(** The invariant of the pool that needs no assumption on the constants. *)
Definition pool_inv (wss : list Websocket.t) : Prop :=
  Forall within_limit wss ∧ length wss ≤ MAX_WEBSOCKETS ∧
  Forall keyed wss ∧ tables_disjoint wss.

Lemma pool_inv_nil : pool_inv [].
Proof. split; [constructor|]. split; [simpl; lia|]. split; [constructor|done]. Qed.

Context `{SetOrder}.

Lemma add_topics_spec pool topics :
  pool_inv (websockets pool) →
  ∃ wss' e,
    add_topics pool topics = ({| _running := _running pool; websockets := wss' |}, e) ∧
    pool_inv wss' ∧
    pool_keys (websockets pool) ⊆ pool_keys wss' ∧
    pool_keys wss' ⊆ pool_keys (websockets pool) ∪ strs topics ∧
    (e = None → pool_keys wss' = pool_keys (websockets pool) ∪ strs topics) ∧
    (e = None ∨
     e = Some (MinerException "Maximum topics limit has been reached")) ∧
    (e ≠ None ↔
     MAX_WEBSOCKETS * WS_TOPICS_LIMIT
     < size (pool_keys (websockets pool) ∪ strs topics)) ∧
    length (websockets pool) ≤ length wss' ∧
    count (websockets pool) ≤ count wss' ∧
    (0 < WS_TOPICS_LIMIT → length (websockets pool) < length wss' →
     (length wss' - 1) * WS_TOPICS_LIMIT < count wss') ∧
    (e ≠ None →
     length wss' = MAX_WEBSOCKETS ∧
     Forall (λ ws, size (Websocket.topics ws) = WS_TOPICS_LIMIT) wss').
Proof.
  intros (Hlim & Hlen & Hkey & Hdisj). destruct pool as [running wss].
  simpl in *. unfold add_topics. simpl.
  pose proof (py_set_NoDup topics) as Hnd.
  pose proof (py_set_strs topics) as Hstrs.
  pose proof (count_le_limit wss Hlim) as Hcount.
  pose proof (count_pool_keys wss Hdisj) as Hsize.
  assert (length wss * WS_TOPICS_LIMIT ≤ MAX_WEBSOCKETS * WS_TOPICS_LIMIT)
    as Hmax by (apply Nat.mul_le_mono_r; lia).
  assert (strs topics ⊆ pool_keys wss →
          ∃ wss' e, (({| _running := running; websockets := wss |}, None)
                     : t * option exn)
                    = ({| _running := running; websockets := wss' |}, e) ∧
            pool_inv wss' ∧ pool_keys wss ⊆ pool_keys wss' ∧
            pool_keys wss' ⊆ pool_keys wss ∪ strs topics ∧
            (e = None → pool_keys wss' = pool_keys wss ∪ strs topics) ∧
            (e = None ∨
             e = Some (MinerException "Maximum topics limit has been reached")) ∧
            (e ≠ None ↔
             MAX_WEBSOCKETS * WS_TOPICS_LIMIT < size (pool_keys wss ∪ strs topics)) ∧
            length wss ≤ length wss' ∧ count wss ≤ count wss' ∧
            (0 < WS_TOPICS_LIMIT → length wss < length wss' →
             (length wss' - 1) * WS_TOPICS_LIMIT < count wss') ∧
            (e ≠ None →
             length wss' = MAX_WEBSOCKETS ∧
             Forall (λ ws, size (Websocket.topics ws) = WS_TOPICS_LIMIT) wss'))
    as Hnothing.
  { intros Hsub. exists wss, None.
    assert (pool_keys wss ∪ strs topics = pool_keys wss) as -> by set_solver.
    repeat split; try done; try lia; by left. }
  destruct (py_set topics) as [|t0 ts0] eqn:Hset.
  { apply Hnothing. rewrite <-Hstrs, strs_nil. set_solver. }
  pose proof (difference_update_NoDup (t0 :: ts0) (all_values wss) Hnd) as Hnd'.
  pose proof (difference_update_strs (t0 :: ts0) (all_values wss)) as Hstrs'.
  rewrite all_values_strs, Hstrs in Hstrs' by done.
  destruct (difference_update (t0 :: ts0) (all_values wss)) as [|t1 ts1] eqn:Hdiff.
  { apply Hnothing. rewrite strs_nil in Hstrs'.
    intros s Hs. destruct (decide (s ∈ pool_keys wss)); [done|]. set_solver. }
  destruct (add_topics_loop_spec MAX_WEBSOCKETS [] wss (t1 :: ts1) running)
    as (wss' & e & Heq & Hlim' & Hlen1 & Hlen2 & Hkey' & Hdisj' & Hsub1 & Hsub2
        & Hok & He & Hfree & Hcount' & Hcompact & Hfull); [done|done| |done|].
  { rewrite Hstrs'. set_solver. }
  simpl in Heq. rewrite Heq. exists wss', e.
  split; [done|]. split; [by repeat split; auto|].
  split; [done|]. split; [set_solver|]. split.
  { intros He'. rewrite (Hok He'), Hstrs'. apply set_eq. intros s.
    destruct (decide (s ∈ pool_keys wss)); set_solver. }
  split; [done|]. split.
  { rewrite Hfree. pose proof (free_count MAX_WEBSOCKETS wss Hlen Hlim) as Hfc.
    rewrite <-(size_strs (t1 :: ts1)), Hstrs' by done.
    rewrite (size_union_alt (pool_keys wss) (strs topics)), <-Hsize. lia. }
  split; [done|]. split; [done|]. split; [done|]. auto.
Qed.


(** *** Removal *)

Lemma ws_remove_topics_spec ws (s : gset string) :
  ∃ ws' s',
    Websocket.remove_topics ws s = (ws', s') ∧
    dom (Websocket.topics ws') = dom (Websocket.topics ws) ∖ s ∧
    s' = s ∖ dom (Websocket.topics ws) ∧
    Websocket.topics ws' ⊆ Websocket.topics ws.
Proof.
  unfold Websocket.remove_topics. case_decide as Hex.
  - exists ws, s. split; [done|]. split; [set_solver|]. split; [set_solver|done].
  - eexists _, _. split; [done|]. simpl. split; [|split].
    + apply dom_filter_L. intros k.
      rewrite elem_of_difference, elem_of_dom. simpl. split.
      * intros [[t Ht] Hn]. exists t. split; [done|].
        rewrite elem_of_intersection. naive_solver.
      * intros (t & Ht & Hn). split; [eauto|]. intros Hk. apply Hn.
        apply elem_of_intersection. split; [done|]. apply elem_of_dom. eauto.
    + set_solver.
    + apply map_filter_subseteq.
Qed.

Lemma submap_keyed (ws ws' : Websocket.t) :
  Websocket.topics ws' ⊆ Websocket.topics ws → keyed ws → keyed ws'.
Proof.
  intros Hsub Hk k t Ht. apply (Hk k t).
  by eapply lookup_weaken.
Qed.

Lemma submap_within_limit (ws ws' : Websocket.t) :
  Websocket.topics ws' ⊆ Websocket.topics ws → within_limit ws → within_limit ws'.
Proof.
  unfold within_limit. intros Hsub%map_subseteq_size. lia.
Qed.

Lemma remove_each_spec wss : ∀ s : gset string,
  length (remove_each wss s) = length wss ∧
  (Forall within_limit wss → Forall within_limit (remove_each wss s)) ∧
  (Forall keyed wss → Forall keyed (remove_each wss s)) ∧
  pool_keys (remove_each wss s) ⊆ pool_keys wss ∧
  (tables_disjoint wss →
   tables_disjoint (remove_each wss s) ∧
   pool_keys (remove_each wss s) = pool_keys wss ∖ s).
Proof.
  induction wss as [|ws wss IH]; intros s; simpl.
  - repeat split; try done. rewrite pool_keys_nil. set_solver.
  - destruct (ws_remove_topics_spec ws s) as (ws' & s' & -> & Hdom & -> & Hsub).
    destruct (IH (s ∖ dom (Websocket.topics ws)))
      as (Hlen & Hlim & Hkey & Hkeys & Hdisj).
    simpl. rewrite !pool_keys_cons.
    split; [lia|]. split.
    { intros [??]%Forall_cons. constructor; [by eapply submap_within_limit|auto]. }
    split.
    { intros [??]%Forall_cons. constructor; [by eapply submap_keyed|auto]. }
    split; [set_solver|].
    intros [Hd Hrest]. destruct (Hdisj Hrest) as [Hd' Heq].
    split; [split; [set_solver|done]|].
    rewrite Heq, Hdom. apply set_eq. intros k.
    destruct (decide (k ∈ dom (Websocket.topics ws))); set_solver.
Qed.

Lemma ws_remove_topics_empty ws : Websocket.remove_topics ws ∅ = (ws, ∅).
Proof.
  unfold Websocket.remove_topics. rewrite decide_True; [done|set_solver].
Qed.

Lemma remove_each_empty wss : remove_each wss ∅ = wss.
Proof.
  induction wss as [|ws wss IH]; [done|].
  simpl. by rewrite ws_remove_topics_empty, IH.
Qed.

Lemma pop_snoc wss ws : pop (wss ++ [ws]) = Some (ws, wss).
Proof.
  unfold pop. rewrite last_snoc, length_app. simpl.
  by rewrite Nat.add_sub, take_app_length.
Qed.

(** The pool holds no more connections than its topics need. *)
Definition compact (wss : list Websocket.t) : Prop := ¬ more_than_needed wss.

Lemma compact_nil : 0 < WS_TOPICS_LIMIT → compact [].
Proof. unfold compact, more_than_needed. simpl. rewrite count_nil. lia. Qed.

Lemma compact_nat wss :
  wss ≠ [] → (length wss - 1) * WS_TOPICS_LIMIT < count wss → compact wss.
Proof.
  intros Hne Hlt. unfold compact, more_than_needed.
  destruct wss as [|ws wss]; [done|]. simpl in *.
  rewrite Nat.sub_0_r in Hlt. nia.
Qed.

Lemma compact_grow wss wss' :
  0 < WS_TOPICS_LIMIT →
  length wss ≤ length wss' → count wss ≤ count wss' →
  (length wss < length wss' → (length wss' - 1) * WS_TOPICS_LIMIT < count wss') →
  compact wss → compact wss'.
Proof.
  intros Hpos Hlen Hcount Hnew Hc.
  destruct (decide (length wss < length wss')) as [Hlt|Hge].
  - apply compact_nat; [|auto]. intros ->. simpl in Hlt. lia.
  - unfold compact, more_than_needed in *.
    assert (length wss' = length wss) as Heq by lia. rewrite Heq. lia.
Qed.

Lemma compact_no_empty wss ws :
  Forall within_limit wss → compact wss → ws ∈ wss →
  Websocket.topics ws ≠ ∅.
Proof.
  intros Hlim Hc Hin Hempty. apply Hc. unfold more_than_needed.
  apply list_elem_of_split in Hin as (l1 & l2 & ->).
  apply Forall_app in Hlim as [Hl1 [_ Hl2]%Forall_cons].
  apply count_le_limit in Hl1, Hl2.
  rewrite count_app, count_cons, Hempty, map_size_empty, length_app. simpl. nia.
Qed.

Lemma recycle_spec n : ∀ wss rec stp,
  length wss = n →
  ∃ popped,
    let r := recycle n wss rec stp in
    wss = kept r ++ reverse popped ∧
    stopped r = stp ++ popped ∧
    recycled_topics r = rec ++ (popped ≫= Websocket.values) ∧
    (failure r = None → compact (kept r)) ∧
    (0 < WS_TOPICS_LIMIT → failure r = None) ∧
    (∀ p1 p2, popped = p1 ++ p2 → p2 ≠ [] →
       more_than_needed (kept r ++ reverse p2)).
Proof.
  induction n as [|n IH]; intros wss rec stp Hlen.
  - destruct wss; [|done]. exists []. simpl.
    case_decide as Hm; simpl; rewrite !app_nil_r.
    + repeat split; try done.
      * intros Hpos. exfalso. by apply (compact_nil Hpos).
      * intros p1 p2 Hp. by destruct p1, p2.
    + repeat split; try done. intros p1 p2 Hp. by destruct p1, p2.
  - destruct wss as [|ws wss _] using rev_ind; [done|].
    rewrite length_app in Hlen. simpl in Hlen.
    simpl. case_decide as Hm.
    + rewrite pop_snoc.
      destruct (IH wss (rec ++ Websocket.values ws) (stp ++ [ws]) ltac:(lia))
        as (popped & Hwss & Hstp & Hrec & Hc & Hf & Hp).
      exists (ws :: popped). simpl in *.
      rewrite reverse_cons, (assoc_L (++)), <-Hwss.
      split; [done|]. split; [by rewrite Hstp, <-(assoc_L (++))|].
      split; [by rewrite Hrec, <-(assoc_L (++))|].
      split; [done|]. split; [done|].
      intros p1 p2 Heq Hne. destruct p1 as [|w p1]; simpl in Heq.
      * subst p2. by rewrite reverse_cons, (assoc_L (++)), <-Hwss.
      * injection Heq as -> ->. by eapply Hp.
    + exists []. simpl. rewrite !app_nil_r.
      repeat split; try done. intros p1 p2 Hp. by destruct p1, p2.
Qed.

Lemma prefix_pool_inv wss1 wss2 : pool_inv (wss1 ++ wss2) → pool_inv wss1.
Proof.
  intros (Hlim & Hlen & Hkey & Hdisj).
  apply Forall_app in Hlim as [? _]. apply Forall_app in Hkey as [? _].
  apply tables_disjoint_app in Hdisj as (? & _ & _).
  rewrite length_app in Hlen. repeat split; try done. lia.
Qed.

Lemma add_topics_nil pool : add_topics pool [] = (pool, None).
Proof.
  unfold add_topics, py_set. simpl.
  pose proof (set_iter_perm []) as Hp. apply Permutation_nil_r in Hp.
  by rewrite Hp.
Qed.

Lemma remove_topics_inv pool topics :
  pool_inv (websockets pool) →
  pool_inv (websockets (pool_after (remove_topics pool topics))).
Proof.
  intros Hinv. unfold remove_topics. case_decide as Hs; [done|].
  set (s := list_to_set topics) in *.
  set (wss1 := remove_each (websockets pool) s).
  assert (pool_inv wss1) as Hinv1.
  { destruct Hinv as (Hlim & Hlen & Hkey & Hdisj).
    destruct (remove_each_spec (websockets pool) s) as (Hl & Hlm & Hk & _ & Hd).
    unfold wss1. repeat split; auto; [lia|]. by apply Hd. }
  destruct (recycle_spec (length wss1) wss1 [] [] eq_refl)
    as (popped & Hwss & Hstp & Hrec & Hc & Hf & _). simpl in *.
  set (r := recycle (length wss1) wss1 [] []) in *.
  assert (pool_inv (kept r)) as Hinvk.
  { rewrite Hwss in Hinv1. by eapply prefix_pool_inv. }
  destruct (failure r); [done|].
  destruct (recycled_topics r) as [|t ts] eqn:Hrt; [done|].
  destruct (add_topics_spec {| _running := _running pool; websockets := kept r |}
              (t :: ts) Hinvk) as (wss' & e & -> & Hinv' & _).
  done.
Qed.

Lemma do_call_inv pool c :
  pool_inv (websockets pool) → pool_inv (websockets (do_call pool c)).
Proof.
  intros Hinv. destruct c as [topics|topics]; simpl.
  - destruct (add_topics_spec pool topics Hinv) as (wss' & e & -> & Hinv' & _).
    done.
  - by apply remove_topics_inv.
Qed.

Lemma run_snoc running calls c :
  run running (calls ++ [c]) = do_call (run running calls) c.
Proof. unfold run. by rewrite foldl_snoc. Qed.

Lemma run_inv running calls : pool_inv (websockets (run running calls)).
Proof.
  induction calls as [|c calls IH] using rev_ind.
  - apply pool_inv_nil.
  - rewrite run_snoc. by apply do_call_inv.
Qed.


Lemma pool_keys_reverse wss : pool_keys (reverse wss) = pool_keys wss.
Proof.
  induction wss as [|ws wss IH]; [done|].
  rewrite reverse_cons, pool_keys_app, !pool_keys_cons, pool_keys_nil, IH.
  set_solver.
Qed.

Lemma remove_topics_spec pool topics :
  0 < WS_TOPICS_LIMIT →
  pool_inv (websockets pool) → compact (websockets pool) →
  let r := remove_topics pool topics in
  raised r = None ∧
  compact (websockets (pool_after r)) ∧
  pool_keys (websockets (pool_after r))
    = pool_keys (websockets pool) ∖ list_to_set topics ∧
  ∃ kept,
    remove_each (websockets pool) (list_to_set topics)
      = kept ++ reverse (stopped_connections r) ∧
    compact kept ∧
    (∀ p1 p2, stopped_connections r = p1 ++ p2 → p2 ≠ [] →
       more_than_needed (kept ++ reverse p2)) ∧
    add_topics {| _running := _running pool; websockets := kept |}
      (stopped_connections r ≫= Websocket.values) = (pool_after r, None).
Proof.
  intros Hpos Hinv Hcompact. unfold remove_topics. case_decide as Hs.
  { simpl. split; [done|]. split; [done|]. split; [set_solver|].
    exists (websockets pool). rewrite Hs, remove_each_empty, app_nil_r.
    split; [done|]. split; [done|]. split; [intros p1 p2 Hp; by destruct p1, p2|].
    rewrite add_topics_nil. by destruct pool. }
  set (s := list_to_set topics) in *.
  set (wss1 := remove_each (websockets pool) s).
  assert (pool_inv wss1 ∧ pool_keys wss1 = pool_keys (websockets pool) ∖ s)
    as [Hinv1 Hkeys1].
  { destruct Hinv as (Hlim & Hlen & Hkey & Hdisj).
    destruct (remove_each_spec (websockets pool) s) as (Hl & Hlm & Hk & _ & Hd).
    destruct (Hd Hdisj). unfold wss1. repeat split; auto. lia. }
  destruct (recycle_spec (length wss1) wss1 [] [] eq_refl)
    as (popped & Hwss & Hstp & Hrec & Hc & Hf & Hp). simpl in *.
  set (r := recycle (length wss1) wss1 [] []) in *.
  specialize (Hf Hpos). specialize (Hc Hf). rewrite Hf.
  assert (pool_inv (kept r)) as Hinvk.
  { rewrite Hwss in Hinv1. by eapply prefix_pool_inv. }
  assert (strs (recycled_topics r) = pool_keys popped) as Hstrs.
  { rewrite Hrec. apply all_values_strs.
    destruct Hinv1 as (_ & _ & Hkey & _). rewrite Hwss in Hkey.
    apply Forall_app in Hkey as [_ Hkey]. by rewrite Forall_reverse in Hkey. }
  assert (pool_keys wss1 = pool_keys (kept r) ∪ strs (recycled_topics r)) as Hsplit.
  { rewrite Hstrs, Hwss at 1. by rewrite pool_keys_app, pool_keys_reverse. }
  destruct (add_topics_spec {| _running := _running pool; websockets := kept r |}
              (recycled_topics r) Hinvk)
    as (wss' & e & Hadd & Hinv' & _ & _ & Hok & _ & He & Hlen & Hcount & Hnew & _).
  simpl in *.
  assert (e = None) as ->.
  { destruct e as [e|]; [exfalso|done].
    assert (Some e ≠ None) as Hne by done. apply He in Hne.
    rewrite <-Hsplit in Hne. destruct Hinv1 as (Hlim & Hlen1 & _ & Hdisj).
    rewrite <-(count_pool_keys _ Hdisj) in Hne.
    pose proof (count_le_limit _ Hlim).
    assert (length wss1 * WS_TOPICS_LIMIT ≤ MAX_WEBSOCKETS * WS_TOPICS_LIMIT)
      by (apply Nat.mul_le_mono_r; lia).
    lia. }
  specialize (Hok eq_refl). rewrite <-Hsplit in Hok.
  destruct (recycled_topics r) as [|t ts] eqn:Hrt; simpl.
  - rewrite add_topics_nil in Hadd. injection Hadd as <-.
    split; [done|]. split; [done|]. split; [by rewrite Hok, Hkeys1|].
    exists (kept r). rewrite Hstp. simpl. split; [done|]. split; [done|].
    split; [done|]. by rewrite <-Hrec, add_topics_nil.
  - rewrite Hadd. simpl.
    split; [done|].
    split; [exact (compact_grow (kept r) wss' Hpos Hlen Hcount (Hnew Hpos) Hc)|].
    split; [by rewrite Hok, Hkeys1|].
    exists (kept r). rewrite Hstp. simpl. split; [done|]. split; [done|].
    split; [done|]. by rewrite <-Hrec.
Qed.

Lemma do_call_compact pool c :
  0 < WS_TOPICS_LIMIT →
  pool_inv (websockets pool) → compact (websockets pool) →
  compact (websockets (do_call pool c)).
Proof.
  intros Hpos Hinv Hc. destruct c as [topics|topics]; simpl.
  - destruct (add_topics_spec pool topics Hinv)
      as (wss' & e & -> & _ & _ & _ & _ & _ & _ & Hlen & Hcount & Hnew & _).
    simpl. exact (compact_grow _ wss' Hpos Hlen Hcount (Hnew Hpos) Hc).
  - by apply remove_topics_spec.
Qed.

Lemma run_compact running calls :
  0 < WS_TOPICS_LIMIT → compact (websockets (run running calls)).
Proof.
  intros Hpos. induction calls as [|c calls IH] using rev_ind.
  - by apply compact_nil.
  - rewrite run_snoc. apply do_call_compact; [done| |done]. apply run_inv.
Qed.

End limits.
End PoolFacts.

Module PoolClaims.
Import WebsocketPool PoolFacts.

(** Constants and a set order to run the pool on: two connections of two
    topics each, sets iterated in insertion order. *)
Definition two_by_two : Limits := {| MAX_WEBSOCKETS := 2; WS_TOPICS_LIMIT := 2 |}.

Definition insertion_order : SetOrder :=
  {| set_iter := λ l, l; set_iter_perm := λ l, Permutation_refl l |}.

Definition topic (s : string) : WebsocketTopic :=
  {| topic_str := s; topic_handler := 0 |}.

(** The tables of a pool, as lists of topic strings. *)
Definition tables (pool : WebsocketPool.t) : list (list string) :=
  (λ ws, (map_to_list (Websocket.topics ws)).*1) <$> websockets pool.

Definition three_topics : list call :=
  [add_topics_call [topic "User.Drops"; topic "User.Points"; topic "User.Drops";
                    topic "Channel.State"]].

Example run_three_topics :
  tables (@run two_by_two insertion_order true three_topics)
  = [["User.Drops"; "User.Points"]; ["Channel.State"]].
Proof. vm_compute. reflexivity. Qed.

Example run_too_many :
  (@add_topics two_by_two insertion_order
     (@run two_by_two insertion_order true three_topics)
     [topic "a"; topic "b"]).2
  = Some (MinerException "Maximum topics limit has been reached").
Proof. vm_compute. reflexivity. Qed.

Example run_remove_compacts :
  tables (@run two_by_two insertion_order true
            (three_topics ++ [remove_topics_call ["User.Drops"]]))
  = [["Channel.State"; "User.Points"]].
Proof. vm_compute. reflexivity. Qed.

Section claims.
Context `{Limits, SetOrder}.

(** C2. After every sequence of [add_topics] and [remove_topics] calls, each
    connection holds at most [WS_TOPICS_LIMIT] topics and the pool holds at
    most [MAX_WEBSOCKETS] connections. On such a pool [add_topics] raises
    nothing but the [MinerException] of the topic limit, and raises it exactly
    when the distinct topics of the pool and of the call number more than
    [MAX_WEBSOCKETS * WS_TOPICS_LIMIT]; then every one of the [MAX_WEBSOCKETS]
    connections is full and a requested topic is left unassigned, and
    otherwise every requested topic is held by the pool. *)
Theorem pool_limits (running : bool) (calls : list call) :
  let pool := run running calls in
  Forall (λ ws, size (Websocket.topics ws) ≤ WS_TOPICS_LIMIT) (websockets pool) ∧
  length (websockets pool) ≤ MAX_WEBSOCKETS ∧
  ∀ topics,
    let pool' := (add_topics pool topics).1 in
    let e := (add_topics pool topics).2 in
    (e = None ∨
     e = Some (MinerException "Maximum topics limit has been reached")) ∧
    (e ≠ None ↔
     MAX_WEBSOCKETS * WS_TOPICS_LIMIT
     < size (pool_keys (websockets pool) ∪ list_to_set (str <$> topics))) ∧
    (e ≠ None →
     length (websockets pool') = MAX_WEBSOCKETS ∧
     Forall (λ ws, size (Websocket.topics ws) = WS_TOPICS_LIMIT)
       (websockets pool') ∧
     ∃ t, t ∈ topics ∧ str t ∉ pool_keys (websockets pool')) ∧
    (e = None →
     ∀ t, t ∈ topics → str t ∈ pool_keys (websockets pool')).
Proof.
  intros pool. pose proof (run_inv running calls) as Hinv. fold pool in Hinv.
  destruct (Hinv) as (Hlim & Hlen & Hkey & Hdisj).
  split; [done|]. split; [done|]. intros topics pool' e.
  destruct (add_topics_spec pool topics Hinv)
    as (wss' & e' & Hadd & Hinv' & Hsub1 & Hsub2 & Hok & He & Hiff & _ & _ & _
        & Hfull).
  subst pool' e. rewrite Hadd. simpl.
  split; [done|]. split; [done|]. split.
  - intros Hne. destruct (Hfull Hne) as [Hl Hall]. split; [done|]. split; [done|].
    destruct Hinv' as (Hlim' & _ & _ & Hdisj').
    apply Hiff in Hne.
    destruct (decide (strs topics ⊆ pool_keys wss')) as [Hsub|Hnsub].
    + exfalso.
      assert (size (pool_keys (websockets pool) ∪ strs topics)
              ≤ size (pool_keys wss')) as Hle.
      { apply subseteq_size. set_solver. }
      rewrite <-(count_pool_keys _ Hdisj') in Hle.
      pose proof (count_le_limit _ Hlim') as Hc. rewrite Hl in Hc.
      lia.
    + assert (strs topics ∖ pool_keys wss' ≠ ∅) as Hx.
      { intros Heq. apply Hnsub. intros s Hs.
        destruct (decide (s ∈ pool_keys wss')) as [|Hn]; [done|]. exfalso.
        assert (s ∈ strs topics ∖ pool_keys wss') as Hin
          by (by apply elem_of_difference).
        rewrite Heq in Hin. by apply not_elem_of_empty in Hin. }
      apply set_choose_L in Hx as [s Hs].
      apply elem_of_difference in Hs as [Hs Hn].
      apply elem_of_strs in Hs as (t & Ht & <-). eauto.
  - intros He' t Ht. rewrite (Hok He'). apply elem_of_union. right.
    apply elem_of_strs. eauto.
Qed.

(** C10. After every sequence of [add_topics] and [remove_topics] calls a
    topic string is in the table of at most one connection of the pool; and
    after a further [add_topics] that does not raise, every requested topic
    is in the table of exactly one connection. *)
Theorem pool_topics_disjoint (running : bool) (calls : list call) :
  let pool := run running calls in
  (∀ i j wi wj s,
     websockets pool !! i = Some wi → websockets pool !! j = Some wj →
     s ∈ dom (Websocket.topics wi) → s ∈ dom (Websocket.topics wj) → i = j) ∧
  (∀ topics t,
     (add_topics pool topics).2 = None → t ∈ topics →
     ∃ i wi,
       websockets (add_topics pool topics).1 !! i = Some wi ∧
       str t ∈ dom (Websocket.topics wi) ∧
       ∀ j wj, websockets (add_topics pool topics).1 !! j = Some wj →
               str t ∈ dom (Websocket.topics wj) → j = i).
Proof.
  intros pool. pose proof (run_inv running calls) as Hinv. fold pool in Hinv.
  split.
  - apply tables_disjoint_lookup. by destruct Hinv as (_ & _ & _ & ?).
  - intros topics t He Ht.
    pose proof (run_inv running (calls ++ [add_topics_call topics])) as Hinv'.
    rewrite run_snoc in Hinv'. simpl in Hinv'. fold pool in Hinv'.
    destruct Hinv' as (_ & _ & _ & Hdisj').
    destruct (add_topics_spec pool topics Hinv)
      as (wss' & e' & Hadd & _ & _ & _ & Hok & _).
    rewrite Hadd in He, Hdisj' |- *. simpl in He, Hdisj' |- *.
    assert (str t ∈ pool_keys wss') as Hall.
    { rewrite (Hok He). apply elem_of_union. right. apply elem_of_strs. eauto. }
    apply elem_of_pool_keys in Hall as (i & wi & Hi & Hs).
    exists i, wi. split; [done|]. split; [done|]. intros j wj Hj Hsj.
    by eapply (proj1 (tables_disjoint_lookup _) Hdisj').
Qed.

(** C7. After every sequence of calls, [remove_topics] does not raise (the
    topic limit is positive), and when it returns: the connections it stopped
    are the last ones of the pool, each popped while the topics of the
    connections still in the pool numbered at most [(n - 1) * WS_TOPICS_LIMIT];
    for the connections that were kept this no longer holds; the topics of the
    stopped connections were added again to the kept ones; the pool holds the
    topics it held, less the removed ones; and no connection is left without
    a topic. *)
Theorem remove_topics_compacts (running : bool) (calls : list call)
    (topics : list string) :
  0 < WS_TOPICS_LIMIT →
  let pool := run running calls in
  let r := remove_topics pool topics in
  raised r = None ∧
  (∃ kept,
     remove_each (websockets pool) (list_to_set topics)
       = kept ++ reverse (stopped_connections r) ∧
     (∀ p1 p2, stopped_connections r = p1 ++ p2 → p2 ≠ [] →
        more_than_needed (kept ++ reverse p2)) ∧
     ¬ more_than_needed kept ∧
     add_topics {| _running := _running pool; websockets := kept |}
       (stopped_connections r ≫= Websocket.values) = (pool_after r, None)) ∧
  ¬ more_than_needed (websockets (pool_after r)) ∧
  pool_keys (websockets (pool_after r))
    = pool_keys (websockets pool) ∖ list_to_set topics ∧
  Forall (λ ws, Websocket.topics ws ≠ ∅) (websockets (pool_after r)).
Proof.
  intros Hpos pool r.
  pose proof (run_inv running calls) as Hinv. fold pool in Hinv.
  pose proof (run_compact running calls Hpos) as Hc. fold pool in Hc.
  destruct (remove_topics_spec pool topics Hpos Hinv Hc)
    as (Hraised & Hcompact & Hkeys & kept & Heach & Hkept & Hpopped & Hadd).
  fold r in Hraised, Hcompact, Hkeys, Heach, Hpopped, Hadd.
  split; [done|]. split; [by exists kept|]. split; [done|]. split; [done|].
  apply Forall_forall. intros ws Hws.
  pose proof (run_inv running (calls ++ [remove_topics_call topics])) as Hinv'.
  rewrite run_snoc in Hinv'. simpl in Hinv'. fold pool r in Hinv'.
  destruct Hinv' as (Hlim' & _). by eapply compact_no_empty.
Qed.

End claims.

Lemma remove_topics_compacts_witness :
  raised (@remove_topics two_by_two insertion_order
            (@run two_by_two insertion_order true three_topics)
            ["User.Drops"]) = None.
Proof.
  refine (proj1 (@remove_topics_compacts two_by_two insertion_order true
                   three_topics ["User.Drops"] _)).
  simpl. lia.
Defined.

End PoolClaims.

(** ** More on the pool: calls that change nothing, and what a call keeps *)

Module PoolMore.
Import WebsocketPool PoolFacts.

Section more.
Context `{Limits, SetOrder}.

Lemma strs_empty (l : list WebsocketTopic) : strs l = ∅ → l = [].
Proof.
  destruct l as [|t l]; [done|]. rewrite strs_cons. intros Heq.
  assert (str t ∈ ({[str t]} ∪ strs l : gset string)) as Hin by set_solver.
  rewrite Heq in Hin. by apply not_elem_of_empty in Hin.
Qed.

Lemma ws_remove_topics_disjoint ws (s : gset string) :
  s ## dom (Websocket.topics ws) → Websocket.remove_topics ws s = (ws, s).
Proof.
  intros Hd. unfold Websocket.remove_topics.
  destruct (decide (s ∩ dom (Websocket.topics ws) = ∅)) as [|Hne]; [done|].
  destruct Hne. apply disjoint_intersection_L. done.
Qed.

Lemma remove_each_disjoint wss (s : gset string) :
  s ## pool_keys wss → remove_each wss s = wss.
Proof.
  induction wss as [|ws wss IH]; [done|]. rewrite pool_keys_cons. intros Hd.
  simpl. rewrite ws_remove_topics_disjoint by set_solver.
  f_equal. apply IH. set_solver.
Qed.

(** X4. On a pool reached by any sequence of calls, [add_topics] with topics
    that are all held already (or with none) returns without an exception and
    leaves the pool as it is: no table changes, not even the handler of a
    topic that is held, and no connection is created. *)
Theorem add_topics_held (running : bool) (calls : list call)
    (topics : list WebsocketTopic) :
  (∀ t, t ∈ topics → str t ∈ pool_keys (websockets (run running calls))) →
  add_topics (run running calls) topics = (run running calls, None).
Proof.
  intros Hheld. destruct (run_inv running calls) as (_ & _ & Hkey & _).
  unfold add_topics. destruct (py_set topics) as [|t ts] eqn:Hset; [done|].
  rewrite (strs_empty (difference_update (t :: ts) _)); [done|].
  rewrite difference_update_strs, <-Hset, py_set_strs, all_values_strs by done.
  apply set_eq. intros s. rewrite elem_of_difference, elem_of_strs.
  split; [|by intros ?%not_elem_of_empty].
  intros [(u & Hu & <-) Hn]. destruct Hn. by apply Hheld.
Qed.

(** X5. On a pool reached by any sequence of calls, with a positive topic
    limit, [remove_topics] with strings none of which is held returns without
    an exception and leaves the pool as it is: no table changes and no
    connection is stopped. *)
Theorem remove_topics_absent (running : bool) (calls : list call)
    (topics : list string) :
  0 < WS_TOPICS_LIMIT →
  (∀ s, s ∈ topics → s ∉ pool_keys (websockets (run running calls))) →
  remove_topics (run running calls) topics
  = {| pool_after := run running calls; stopped_connections := [];
       raised := None |}.
Proof.
  intros Hpos Habsent. pose proof (run_compact running calls Hpos) as Hc.
  unfold remove_topics. case_decide as Hne; [done|].
  rewrite remove_each_disjoint.
  2:{ intros s Hs%elem_of_list_to_set. by apply Habsent. }
  destruct (run running calls) as [r wss]. simpl in *.
  assert (recycle (length wss) wss [] []
          = {| kept := wss; recycled_topics := []; stopped := [];
               failure := None |}) as ->; [|done].
  destruct wss; simpl; by case_decide.
Qed.

(** Every connection has its position in the pool as its index. *)
Definition positions (wss : list Websocket.t) : Prop :=
  ∀ i ws, wss !! i = Some ws → Websocket._idx ws = i.

(** [keeps ws ws']: [ws'] is [ws] with its table extended. *)
Definition keeps (ws ws' : Websocket.t) : Prop :=
  Websocket.topics ws ⊆ Websocket.topics ws' ∧
  Websocket._idx ws' = Websocket._idx ws ∧
  Websocket._handle_task ws' = Websocket._handle_task ws.

(** No topic of [ts] is in a table of [wss]. *)
Definition unheld (wss : list Websocket.t) (ts : list WebsocketTopic) : Prop :=
  ∀ i ws t, wss !! i = Some ws → t ∈ ts → Websocket.topics ws !! str t = None.

Lemma ws_add_topics_loop_keeps tbl ts changed :
  NoDup (str <$> ts) → (∀ t, t ∈ ts → tbl !! str t = None) →
  ∃ taken rest,
    ts = taken ++ rest ∧
    (Websocket.add_topics_loop tbl ts changed).1.2 = rest ∧
    tbl ⊆ (Websocket.add_topics_loop tbl ts changed).1.1 ∧
    ∀ t, t ∈ rest → (Websocket.add_topics_loop tbl ts changed).1.1 !! str t = None.
Proof.
  revert tbl changed. induction ts as [|t ts IH]; intros tbl changed Hnd Hno.
  { exists [], []. simpl. split; [done|]. split; [done|]. split; [done|].
    by intros ? ?%elem_of_nil. }
  simpl in Hnd. apply NoDup_cons in Hnd as [Ht Hnd]. simpl. case_decide.
  - destruct (IH (<[str t:=t]> tbl) true Hnd) as (taken & rest & -> & Hr & Hsub & Hn).
    { intros u Hu. rewrite lookup_insert_ne; [apply Hno; by right|].
      intros Heq. apply Ht. rewrite Heq. by apply list_elem_of_fmap_2. }
    exists (t :: taken), rest. split; [done|]. split; [done|]. split; [|done].
    etrans; [|exact Hsub]. apply insert_subseteq. apply Hno. by left.
  - exists [], (t :: ts). simpl. auto.
Qed.

Lemma ws_add_topics_keeps ws ts :
  NoDup (str <$> ts) → (∀ t, t ∈ ts → Websocket.topics ws !! str t = None) →
  ∃ taken rest,
    ts = taken ++ rest ∧ (Websocket.add_topics ws ts).2 = rest ∧
    keeps ws (Websocket.add_topics ws ts).1 ∧
    ∀ t, t ∈ rest →
      Websocket.topics (Websocket.add_topics ws ts).1 !! str t = None.
Proof.
  intros Hnd Hno.
  destruct (ws_add_topics_loop_keeps (Websocket.topics ws) ts false Hnd Hno)
    as (taken & rest & Hts & Hr & Hsub & Hn).
  exists taken, rest. unfold Websocket.add_topics.
  destruct (Websocket.add_topics_loop _ _ _) as [[tbl r] c]. simpl in *.
  by repeat split.
Qed.

Lemma keeps_refl ws : keeps ws ws.
Proof. by repeat split. Qed.

Lemma keeps_trans ws1 ws2 ws3 : keeps ws1 ws2 → keeps ws2 ws3 → keeps ws1 ws3.
Proof.
  intros (? & ? & ?) (? & ? & ?). repeat split; [by etrans|congruence..].
Qed.

Lemma add_topics_loop_keeps n : ∀ ws_idx wss ts running,
  ws_idx ≤ length wss → NoDup (str <$> ts) → unheld wss ts → positions wss →
  let wss' := (add_topics_loop n ws_idx running wss ts).1 in
  positions wss' ∧
  ∀ i ws, wss !! i = Some ws → ∃ ws', wss' !! i = Some ws' ∧ keeps ws ws'.
Proof.
  induction n as [|n IH]; intros ws_idx wss ts running Hidx Hnd Hun Hpos.
  { simpl. split; [done|]. intros i ws Hi. exists ws. by split; [|apply keeps_refl]. }
  simpl. destruct (wss !! ws_idx) as [ws|] eqn:Hws.
  - destruct (ws_add_topics_keeps ws ts Hnd) as (taken & rest & -> & Hr & Hk & Hn).
    { intros t Ht. by eapply Hun. }
    destruct (Websocket.add_topics ws (taken ++ rest)) as [ws' rest'].
    simpl in Hr, Hk, Hn. subst rest'.
    assert (ws_idx < length wss) as Hlt by (by eapply lookup_lt_Some).
    assert (positions (<[ws_idx:=ws']> wss)) as Hpos'.
    { intros i w Hi. destruct (decide (i = ws_idx)) as [->|Hne].
      - rewrite list_lookup_insert_eq in Hi by done. simplify_eq.
        destruct Hk as (_ & -> & _). by apply Hpos.
      - rewrite list_lookup_insert_ne in Hi by done. by apply Hpos. }
    assert (∀ i w, wss !! i = Some w →
              ∃ w', <[ws_idx:=ws']> wss !! i = Some w' ∧ keeps w w') as Hstep.
    { intros i w Hi. destruct (decide (i = ws_idx)) as [->|Hne].
      - exists ws'. rewrite list_lookup_insert_eq by done. by simplify_eq.
      - exists w. rewrite list_lookup_insert_ne by done.
        by split; [|apply keeps_refl]. }
    destruct rest as [|t rest]; [done|].
    destruct (IH (S ws_idx) (<[ws_idx:=ws']> wss) (t :: rest) running)
      as [Hp Hkeep]; [by rewrite length_insert; lia| | |done|].
    { rewrite fmap_app in Hnd. by apply NoDup_app in Hnd as (_ & _ & ?). }
    { intros i w u Hi Hu. destruct (decide (i = ws_idx)) as [->|Hne].
      - rewrite list_lookup_insert_eq in Hi by done. simplify_eq. by apply Hn.
      - rewrite list_lookup_insert_ne in Hi by done.
        eapply Hun; [done|]. apply elem_of_app. by right. }
    split; [done|]. intros i w Hi.
    destruct (Hstep i w Hi) as (w' & Hi' & Hk').
    destruct (Hkeep i w' Hi') as (w'' & Hi'' & Hk''). exists w''.
    split; [done|]. by eapply keeps_trans.
  - apply lookup_ge_None in Hws. assert (ws_idx = length wss) as -> by lia.
    set (ws := Websocket.new (length wss) running).
    destruct (ws_add_topics_keeps ws ts Hnd) as (taken & rest & -> & Hr & Hk & Hn).
    { intros t Ht. apply lookup_empty. }
    destruct (Websocket.add_topics ws (taken ++ rest)) as [ws' rest'].
    simpl in Hr, Hk, Hn. subst rest'.
    assert (positions (wss ++ [ws'])) as Hpos'.
    { intros i w Hi. apply lookup_app_Some in Hi as [Hi|[Hge Hi]]; [by apply Hpos|].
      apply list_lookup_singleton_Some in Hi as [Hz <-].
      destruct Hk as (_ & -> & _). simpl. lia. }
    assert (∀ i w, wss !! i = Some w →
              ∃ w', (wss ++ [ws']) !! i = Some w' ∧ keeps w w') as Hstep.
    { intros i w Hi. exists w. rewrite lookup_app_l by (by eapply lookup_lt_Some).
      by split; [|apply keeps_refl]. }
    destruct rest as [|t rest]; [done|].
    destruct (IH (S (length wss)) (wss ++ [ws']) (t :: rest) running)
      as [Hp Hkeep]; [by rewrite length_app; simpl; lia| | |done|].
    { rewrite fmap_app in Hnd. by apply NoDup_app in Hnd as (_ & _ & ?). }
    { intros i w u Hi Hu. apply lookup_app_Some in Hi as [Hi|[Hge Hi]].
      - eapply Hun; [done|]. apply elem_of_app. by right.
      - apply list_lookup_singleton_Some in Hi as [_ <-]. by apply Hn. }
    split; [done|]. intros i w Hi.
    destruct (Hstep i w Hi) as (w' & Hi' & Hk').
    destruct (Hkeep i w' Hi') as (w'' & Hi'' & Hk''). exists w''.
    split; [done|]. by eapply keeps_trans.
Qed.

Lemma add_topics_keeps pool topics :
  Forall keyed (websockets pool) → positions (websockets pool) →
  positions (websockets (add_topics pool topics).1) ∧
  ∀ i ws, websockets pool !! i = Some ws →
    ∃ ws', websockets (add_topics pool topics).1 !! i = Some ws' ∧ keeps ws ws'.
Proof.
  intros Hkey Hpos.
  assert (∀ i ws, websockets pool !! i = Some ws →
            ∃ ws', websockets pool !! i = Some ws' ∧ keeps ws ws') as Hsame.
  { intros i ws Hi. exists ws. by split; [|apply keeps_refl]. }
  unfold add_topics. destruct (py_set topics) as [|t ts] eqn:Hset; [done|].
  destruct (difference_update (t :: ts) _) as [|u us] eqn:Hdiff; [done|].
  pose proof (add_topics_loop_keeps MAX_WEBSOCKETS 0 (websockets pool) (u :: us)
                (_running pool)) as Hloop.
  destruct (add_topics_loop _ _ _ _ _) as [wss e].
  apply Hloop; [lia| | |done].
  - rewrite <-Hdiff. apply difference_update_NoDup. rewrite <-Hset.
    apply py_set_NoDup.
  - intros i ws v Hi Hv. apply not_elem_of_dom. intros Hin.
    assert (str v ∈ strs (u :: us)) as Hs by (apply elem_of_strs; eauto).
    rewrite <-Hdiff, difference_update_strs, all_values_strs in Hs by done.
    apply elem_of_difference in Hs as [_ Hs]. apply Hs.
    apply elem_of_pool_keys. eauto.
Qed.

Lemma ws_remove_topics_idx ws (s : gset string) :
  Websocket._idx (Websocket.remove_topics ws s).1 = Websocket._idx ws.
Proof. unfold Websocket.remove_topics. by case_decide. Qed.

Lemma remove_each_positions wss : ∀ (s : gset string) k,
  (∀ i ws, wss !! i = Some ws → Websocket._idx ws = k + i) →
  ∀ i ws, remove_each wss s !! i = Some ws → Websocket._idx ws = k + i.
Proof.
  induction wss as [|w wss IH]; intros s k Hpos i ws; [done|]. simpl.
  pose proof (ws_remove_topics_idx w s) as Hidx.
  destruct (Websocket.remove_topics w s) as [w' s']. simpl in Hidx.
  destruct i as [|i]; simpl.
  - intros [= <-]. rewrite Hidx. by apply (Hpos 0).
  - intros Hi. replace (k + S i) with (S k + i) by lia.
    apply (IH s' (S k)); [|done]. intros j x Hj.
    replace (S k + j) with (k + S j) by lia. by apply (Hpos (S j)).
Qed.

Lemma positions_prefix wss1 wss2 : positions (wss1 ++ wss2) → positions wss1.
Proof.
  intros Hpos i ws Hi. apply Hpos. rewrite lookup_app_l; [done|].
  by eapply lookup_lt_Some.
Qed.

Lemma remove_topics_positions pool topics :
  pool_inv (websockets pool) → positions (websockets pool) →
  positions (websockets (pool_after (remove_topics pool topics))).
Proof.
  intros Hinv Hpos. unfold remove_topics. case_decide; [done|].
  set (wss := remove_each (websockets pool) (list_to_set topics)).
  assert (positions wss) as Hwss.
  { intros i ws Hi.
    by apply (remove_each_positions (websockets pool) (list_to_set topics) 0
                Hpos i ws). }
  destruct (recycle_spec (length wss) wss [] [] eq_refl)
    as (popped & Hkept & _). simpl in Hkept.
  assert (positions (kept (recycle (length wss) wss [] []))) as Hk.
  { eapply positions_prefix. by rewrite <-Hkept. }
  assert (Forall keyed (kept (recycle (length wss) wss [] []))) as Hkeyed.
  { destruct Hinv as (_ & _ & Hkey & _).
    pose proof (proj1 (proj2 (proj2 (remove_each_spec (websockets pool)
      (list_to_set topics)))) Hkey) as Hkey'. fold wss in Hkey'.
    rewrite Hkept in Hkey'. by apply Forall_app in Hkey' as [? _]. }
  destruct (failure _); [done|]. destruct (recycled_topics _) as [|t ts]; [done|].
  pose proof (add_topics_keeps
    {| _running := _running pool;
       websockets := kept (recycle (length wss) wss [] []) |} (t :: ts)
    Hkeyed Hk) as [Hp _].
  destruct (add_topics _ _) as [pool'' e]. done.
Qed.

Lemma run_positions (running : bool) (calls : list call) :
  positions (websockets (run running calls)).
Proof.
  induction calls as [|c calls IH] using rev_ind; [by intros i ws ?|].
  rewrite run_snoc. pose proof (run_inv running calls) as Hinv.
  destruct c as [topics|topics]; simpl.
  - apply add_topics_keeps; [|done]. by destruct Hinv as (_ & _ & ? & _).
  - by apply remove_topics_positions.
Qed.

(** X6. After every sequence of [add_topics] and [remove_topics] calls, the
    indices of the connections of the pool are [0, 1, ..., n - 1] in order:
    the index a connection was created with stays its position in
    [websockets]. *)
Theorem pool_positions (running : bool) (calls : list call) :
  Websocket._idx <$> websockets (run running calls)
  = seq 0 (length (websockets (run running calls))).
Proof.
  pose proof (run_positions running calls) as Hpos.
  apply list_eq. intros i. rewrite list_lookup_fmap.
  destruct (websockets (run running calls) !! i) as [ws|] eqn:Hi; simpl.
  - rewrite (Hpos i ws Hi). symmetry. apply lookup_seq.
    split; [done|]. by eapply lookup_lt_Some.
  - symmetry. apply lookup_ge_None. rewrite length_seq.
    by apply lookup_ge_None.
Qed.

(** X7. [add_topics] on a pool reached by any sequence of calls takes nothing
    away, also when it raises: every connection stays at its position, with
    the same index and task, and every topic it held is still in its table
    under the same string and with the same handler. *)
Theorem add_topics_keeps_tables (running : bool) (calls : list call)
    (topics : list WebsocketTopic) (i : nat) (ws : Websocket.t) :
  websockets (run running calls) !! i = Some ws →
  ∃ ws', websockets (add_topics (run running calls) topics).1 !! i = Some ws' ∧
    Websocket._idx ws' = Websocket._idx ws ∧
    Websocket._handle_task ws' = Websocket._handle_task ws ∧
    ∀ s t, Websocket.topics ws !! s = Some t → Websocket.topics ws' !! s = Some t.
Proof.
  intros Hi. destruct (run_inv running calls) as (_ & _ & Hkey & _).
  destruct (add_topics_keeps (run running calls) topics Hkey
              (run_positions running calls)) as [_ Hkeep].
  destruct (Hkeep i ws Hi) as (ws' & Hi' & Hsub & Hidx & Htask).
  exists ws'. repeat split; try done. intros s t Hs. by eapply lookup_weaken.
Qed.

End more.

Lemma remove_topics_absent_witness :
  raised (@remove_topics PoolClaims.two_by_two PoolClaims.insertion_order
            (@run PoolClaims.two_by_two PoolClaims.insertion_order true
               PoolClaims.three_topics) ["User.Other"]) = None.
Proof.
  rewrite (@remove_topics_absent PoolClaims.two_by_two
             PoolClaims.insertion_order true PoolClaims.three_topics
             ["User.Other"]); [done|simpl; lia|].
  intros s ->%list_elem_of_singleton. vm_compute. discriminate.
Defined.

Lemma add_topics_keeps_tables_witness :
  ∃ ws', websockets
           (@add_topics PoolClaims.two_by_two PoolClaims.insertion_order
              (@run PoolClaims.two_by_two PoolClaims.insertion_order true
                 PoolClaims.three_topics) [PoolClaims.topic "User.New"]).1 !! 1
         = Some ws' ∧ Websocket._idx ws' = 1.
Proof.
  destruct (@add_topics_keeps_tables PoolClaims.two_by_two
              PoolClaims.insertion_order true PoolClaims.three_topics
              [PoolClaims.topic "User.New"] 1
              {| Websocket._idx := 1;
                 Websocket.topics := {[ "Channel.State" := PoolClaims.topic "Channel.State" ]};
                 Websocket._topics_changed := true;
                 Websocket._handle_task := true |})
    as (ws' & Hi & Hidx & _); [vm_compute; reflexivity|].
  exists ws'. by split.
Defined.

Lemma add_topics_held_witness :
  @add_topics PoolClaims.two_by_two PoolClaims.insertion_order
    (@run PoolClaims.two_by_two PoolClaims.insertion_order true
       PoolClaims.three_topics) [PoolClaims.topic "User.Drops"]
  = (@run PoolClaims.two_by_two PoolClaims.insertion_order true
       PoolClaims.three_topics, None).
Proof.
  apply (@add_topics_held PoolClaims.two_by_two PoolClaims.insertion_order).
  intros t ->%list_elem_of_singleton. vm_compute. reflexivity.
Defined.

End PoolMore.

(** ** Channel priorities and the switch rule ([twitch/client.py], [twitch/streams.py]) *)

(** The names of the four priority algorithms, constants of [constants.py],
    which is not among the sources. *)
Class AlgorithmNames : Type := {
  PRIORITY_ALGORITHM_LIST : string;
  PRIORITY_ALGORITHM_ADAPTIVE : string;
  PRIORITY_ALGORITHM_BALANCED : string;
  PRIORITY_ALGORITHM_ENDING_SOONEST : string;
}.

Module Client.

(** Modelled from the spec: [Game] is declared in [utils.py], which is not
    among the sources. Two games are equal when their ids are, so a
    dictionary keyed by games is keyed by their ids. *)
Record Game : Type := {
  game_id : Z;
  game_name : string;
}.

(** The fields of a [Channel] that the priority and the switch rule read. *)
Record Channel : Type := {
  channel_id : Z;
  game : option Game;
  viewers : option Z;
  acl_based : bool;
}.

(** What the attribute [watching_channel] holds. [StreamsManager.__init__]
    sets it to [None] and [Twitch.__init__] copies it; the methods called on it
    ([get_with_default], [set], [clear], [get]) are those of an
    [AwaitableValue], the class of [utils.py] that [Websocket._ws] is an
    instance of.
    Modelled from the spec: [AwaitableValue] is declared in [utils.py], which
    is not among the sources. It is a slot, empty or holding a value. *)
Inductive attribute : Type :=
  | PyNone
  | AwaitableValue (value : option Channel).

(** The fields of [Twitch] read here. A priority is a Python number, an [int]
    or a finite [float]: it is carried by its exact value, and Python compares
    such numbers by their exact values. *)
Record Twitch : Type := {
  priority_algorithm : string;
  wanted_games : gmap Z Q;
  watching_channel : attribute;
}.

(** [Twitch.__init__], on the fields above: no game is wanted and
    [watching_channel] is the [None] of [StreamsManager.__init__]. Nothing
    assigns the attribute afterwards. *)
Definition __init__ (priority_algorithm : string) : Twitch :=
  {| priority_algorithm := priority_algorithm;
     wanted_games := ∅;
     watching_channel := PyNone |}.

(** [self.watching_channel.get_with_default(default)]: on [None] the
    attribute lookup raises [AttributeError]; on an [AwaitableValue] it is
    the value held, or [default] when the slot is empty. *)
Definition get_with_default (obj : attribute) (default : option Channel)
    : result (option Channel) :=
  match obj with
  | PyNone => Raise AttributeError
  | AwaitableValue (Some v) => Ok (Some v)
  | AwaitableValue None => Ok default
  end.

Definition _get_list_priority (self : Twitch) (channel : Channel) : Q :=
  match game channel with
  | None => 0
  | Some g => default 0%Q (wanted_games self !! game_id g)
  end.

(** The viewers bonus is an [int]; adding it to a [float] priority rounds,
    which the exact sum does not show. *)
Definition _get_adaptive_priority (self : Twitch) (channel : Channel) : Q :=
  let base_priority := _get_list_priority self channel in
  match viewers channel with
  | Some v =>
      if (v =? 0)%Z then base_priority
      else base_priority + inject_Z (Z.min (v / 1000) 10)
  | None => base_priority
  end.

Definition _get_balanced_priority (self : Twitch) (channel : Channel) : Q :=
  _get_list_priority self channel.

Definition _get_ending_soonest_priority (self : Twitch) (channel : Channel) : Q :=
  _get_list_priority self channel.

Definition get_priority `{AlgorithmNames} (self : Twitch) (channel : Channel) : Q :=
  let algorithm := priority_algorithm self in
  if String.eqb algorithm PRIORITY_ALGORITHM_LIST then
    _get_list_priority self channel
  else if String.eqb algorithm PRIORITY_ALGORITHM_ADAPTIVE then
    _get_adaptive_priority self channel
  else if String.eqb algorithm PRIORITY_ALGORITHM_BALANCED then
    _get_balanced_priority self channel
  else if String.eqb algorithm PRIORITY_ALGORITHM_ENDING_SOONEST then
    _get_ending_soonest_priority self channel
  else
    _get_list_priority self channel.

(** [a > b] on Python numbers. *)
Definition num_gt (a b : Q) : bool := negb (Qle_bool a b).

(** [a > b] on [bool]s, which Python compares as the integers 0 and 1. *)
Definition bool_gt (a b : bool) : bool := (Z.b2z b <? Z.b2z a)%Z.

(** [Twitch.should_switch]; [StreamsManager.should_switch] is the same code
    on [self.twitch] and on its own [watching_channel], which is the same
    object. [or] binds weaker than [and]. *)
Definition should_switch `{AlgorithmNames} (self : Twitch) (channel : Channel)
    : result bool :=
  match get_with_default (watching_channel self) None with
  | Raise e => Raise e
  | Ok None => Ok true
  | Ok (Some watching_channel) =>
      let channel_order := get_priority self channel in
      let watching_order := get_priority self watching_channel in
      Ok (num_gt channel_order watching_order
          || (Qeq_bool channel_order watching_order
              && bool_gt (acl_based channel) (acl_based watching_channel)))
  end.

End Client.

Module ClientClaims.
Import Client.

Lemma num_gt_spec (a b : Q) : num_gt a b = true ↔ (b < a)%Q.
Proof.
  unfold num_gt. rewrite negb_true_iff, <-not_true_iff_false, Qle_bool_iff.
  split; [apply Qnot_le_lt|apply Qlt_not_le].
Qed.

Lemma bool_gt_spec (a b : bool) : bool_gt a b = true ↔ a = true ∧ b = false.
Proof. destruct a, b; compute; naive_solver. Qed.

Definition names : AlgorithmNames :=
  {| PRIORITY_ALGORITHM_LIST := "LIST";
     PRIORITY_ALGORITHM_ADAPTIVE := "ADAPTIVE";
     PRIORITY_ALGORITHM_BALANCED := "BALANCED";
     PRIORITY_ALGORITHM_ENDING_SOONEST := "ENDING_SOONEST" |}.

Definition game_a : Game := {| game_id := 1; game_name := "GameA" |}.
Definition game_b : Game := {| game_id := 2; game_name := "GameB" |}.

Definition channel_of (id : Z) (g : Game) (acl : bool) : Channel :=
  {| channel_id := id; game := Some g; viewers := Some 1200%Z; acl_based := acl |}.

(** A client with two wanted games; [obj] is what [watching_channel] holds. *)
Definition watching (obj : attribute) : Twitch :=
  {| priority_algorithm := "LIST";
     wanted_games := {[ 1%Z := 2%Q; 2%Z := 1%Q ]};
     watching_channel := obj |}.

(** The body of the function, had the attribute been the [AwaitableValue]
    that the calls on it assume. *)
Example switch_to_higher :
  @should_switch names
    (watching (AwaitableValue (Some (channel_of 10 game_b true))))
    (channel_of 11 game_a false) = Ok true.
Proof. vm_compute. reflexivity. Qed.

Example stay_on_equal :
  @should_switch names
    (watching (AwaitableValue (Some (channel_of 10 game_a false))))
    (channel_of 11 game_a false) = Ok false.
Proof. vm_compute. reflexivity. Qed.

Example switch_to_acl :
  @should_switch names
    (watching (AwaitableValue (Some (channel_of 10 game_a false))))
    (channel_of 11 game_a true) = Ok true.
Proof. vm_compute. reflexivity. Qed.

Example switch_on_empty_slot :
  @should_switch names (watching (AwaitableValue None))
    (channel_of 11 game_a false) = Ok true.
Proof. vm_compute. reflexivity. Qed.

(** C3. On the client as [Twitch.__init__] builds it, whatever games are
    wanted since and whatever the algorithm, [should_switch] returns nothing:
    [watching_channel] is [None], and the call of [get_with_default] on it
    raises [AttributeError], for every channel. In particular it does not
    return true when no channel is being watched. *)
Theorem should_switch_raises `{AlgorithmNames} (self : Twitch) (new : Channel) :
  watching_channel self = watching_channel (__init__ (priority_algorithm self)) →
  should_switch self new = Raise AttributeError ∧
  should_switch self new ≠ Ok true.
Proof.
  intros Hnone. unfold should_switch. rewrite Hnone. simpl. by split.
Qed.

Lemma should_switch_raises_witness :
  @should_switch names (watching PyNone) (channel_of 11 game_a false)
  = Raise AttributeError.
Proof.
  exact (proj1 (@should_switch_raises names (watching PyNone)
                  (channel_of 11 game_a false) eq_refl)).
Defined.

End ClientClaims.

(** ** More on the priority of a channel *)

Module ClientMore.
Import Client ClientClaims.

(** X9. Under every algorithm but ADAPTIVE, an unknown name included, the
    priority of a channel is the [wanted_games] entry of its game, and 0 when
    it has no game or the game is not wanted. Under ADAPTIVE a channel with
    viewers gets [min(viewers // 1000, 10)] on top: nothing below a thousand
    viewers, and never more than 10. *)
Theorem get_priority_bonus `{AlgorithmNames} (self : Twitch) (channel : Channel) :
  (priority_algorithm self ≠ PRIORITY_ALGORITHM_ADAPTIVE →
   get_priority self channel = _get_list_priority self channel) ∧
  (game channel = None → _get_list_priority self channel = 0%Q) ∧
  (∀ g, game channel = Some g → wanted_games self !! game_id g = None →
        _get_list_priority self channel = 0%Q) ∧
  (priority_algorithm self = PRIORITY_ALGORITHM_ADAPTIVE →
   PRIORITY_ALGORITHM_ADAPTIVE ≠ PRIORITY_ALGORITHM_LIST →
   ∀ v, viewers channel = Some v → (0 ≤ v)%Z →
     ∃ bonus : Z,
       (get_priority self channel
        == _get_list_priority self channel + inject_Z bonus)%Q ∧
       (0 ≤ bonus ≤ 10)%Z ∧ (v < 1000 → bonus = 0)%Z ∧
       (10000 ≤ v → bonus = 10)%Z).
Proof.
  split; [|split; [|split]].
  - intros Hne. unfold get_priority.
    destruct (String.eqb_spec (priority_algorithm self) PRIORITY_ALGORITHM_LIST);
      [done|].
    destruct (String.eqb_spec (priority_algorithm self)
                PRIORITY_ALGORITHM_ADAPTIVE); [done|].
    by repeat case_match.
  - unfold _get_list_priority. by intros ->.
  - unfold _get_list_priority. by intros g -> ->.
  - intros Ha Hne v Hv Hpos. unfold get_priority. rewrite Ha.
    destruct (String.eqb_spec PRIORITY_ALGORITHM_ADAPTIVE PRIORITY_ALGORITHM_LIST);
      [done|].
    rewrite String.eqb_refl. unfold _get_adaptive_priority. rewrite Hv.
    destruct (Z.eqb_spec v 0) as [->|Hnz].
    + exists 0%Z. split; [unfold inject_Z; lra|lia].
    + exists (Z.min (v / 1000) 10). split; [reflexivity|].
      assert (0 ≤ v / 1000)%Z by (apply Z.div_pos; lia).
      split; [lia|]. split.
      * intros Hlt. rewrite Z.div_small by lia. lia.
      * intros Hge. assert (10 ≤ v / 1000)%Z; [|lia].
        apply Z.div_le_lower_bound; lia.
Qed.

Lemma get_priority_bonus_witness :
  @get_priority names (watching PyNone)
    {| channel_id := 3; game := None; viewers := None; acl_based := false |}
  = _get_list_priority (watching PyNone)
    {| channel_id := 3; game := None; viewers := None; acl_based := false |}.
Proof.
  refine (proj1 (@get_priority_bonus names (watching PyNone) _) _).
  vm_compute. discriminate.
Defined.

End ClientMore.

(** ** GQL requests ([Twitch.gql_request]) *)

Module Gql.

(** The messages on which the whole request is sent again. *)
Definition retry_messages : list string :=
  ["service unavailable"; "service timeout"; "context deadline exceeded"].

(** [s in t] on strings. *)
Definition substring_of (s t : string) : bool :=
  match String.index 0 s t with
  | Some _ => true
  | None => false
  end.

Inductive scan_result : Type :=
  | ForceRetry                                (* [force_retry = True; break] *)
  | NoRetry (persisted_query_help : bool)     (* the [else] of the loop *)
  | ScanTypeError                             (* [x in "..."] with [x] not a string *)
  | NotAnObject.                              (* an entry that is no JSON object *)

(** The loop [for error_dict in response_json["errors"]]; [additional] tells
    whether [additional_message] holds the help text. *)
Fixpoint scan_errors (errors : list Json) (additional : bool) : scan_result :=
  match errors with
  | [] => NoRetry additional
  | JDict error_dict :: rest =>
      match error_dict !! "message" with
      | Some (JStr message) =>
          if bool_decide (message ∈ retry_messages) then ForceRetry
          else if substring_of message "PersistedQueryNotFound"
          then scan_errors rest true
          else scan_errors rest additional
      | Some _ => ScanTypeError
      | None => scan_errors rest additional
      end
  | _ :: _ => NotAnObject
  end.

Inductive verdict : Type :=
  | Return                 (* the [else] of the loop: [return orig_response] *)
  | Retry                  (* [force_retry]: sleep and go round again *)
  | Raises (e : exn).

(** The loop [for response_json in response_list]. The result is [None] when
    the answer is not of the form of a GraphQL response: a response that is
    no object, or errors that are no list of objects. *)
Fixpoint check_responses (response_list : list Json) : option verdict :=
  match response_list with
  | [] => Some Return
  | JDict response_json :: rest =>
      match response_json !! "errors" with
      | None => check_responses rest
      | Some (JList errors) =>
          match scan_errors errors false with
          | ForceRetry => Some Retry
          | NoRetry additional => Some (Raises (GqlError (JList errors) additional))
          | ScanTypeError => Some (Raises TypeError)
          | NotAnObject => None
          end
      | Some _ => None
      end
  | _ :: _ => None
  end.

(** [response_list]: the answer itself when it is a list, else the list of
    the one answer. *)
Definition response_list_of (response_json : Json) : list Json :=
  match response_json with
  | JList l => l
  | _ => [response_json]
  end.

(** What one pass through [self.request] gives: [RequestInvalid] or the
    decoded answer. *)
Inductive attempt : Type :=
  | RequestInvalid
  | Response (response_json : Json).

Inductive event : Type :=
  | Request (ops : Json)     (* [self.request("POST", ..., json=ops)] *)
  | Sleep (delay : Q).       (* [asyncio.sleep(delay)] *)

Inductive outcome : Type :=
  | Returned (response : Json)
  | Raised (e : exn)
  | NotGraphQL.

(** [gql_request(ops)]. [backoff] lists the delays that the
    [ExponentialBackoff] iterator (of [utils.py], not among the sources)
    yields, and [answers k] is what the [k]-th request gives. *)
Fixpoint gql_request (ops : Json) (backoff : list Q) (answers : nat → attempt)
    (k : nat) : list event * outcome :=
  match backoff with
  | [] => ([], Raised (MinerException ""))
  | delay :: backoff' =>
      match answers k with
      | RequestInvalid =>
          let '(events, o) := gql_request ops backoff' answers (S k) in
          (Request ops :: events, o)
      | Response response_json =>
          match check_responses (response_list_of response_json) with
          | Some Return => ([Request ops], Returned response_json)
          | Some (Raises e) => ([Request ops], Raised e)
          | Some Retry =>
              let '(events, o) := gql_request ops backoff' answers (S k) in
              (Request ops :: Sleep delay :: events, o)
          | None => ([Request ops], NotGraphQL)
          end
      end
  end.

End Gql.

Module GqlClaims.
Import Gql.

(** An error whose message is one of the three. *)
Definition retryable_error (e : Json) : Prop :=
  ∃ d s, e = JDict d ∧ d !! "message" = Some (JStr s) ∧ s ∈ retry_messages.

(** The errors of a GraphQL response: objects whose message, when there is
    one, is a string. *)
Definition graphql_errors (errors : list Json) : Prop :=
  Forall (λ e, ∃ d, e = JDict d ∧
                    ∀ v, d !! "message" = Some v → ∃ s, v = JStr s) errors.

Lemma scan_errors_spec (errors : list Json) (additional : bool) :
  graphql_errors errors →
  match scan_errors errors additional with
  | ForceRetry => Exists retryable_error errors
  | NoRetry _ => ¬ Exists retryable_error errors
  | _ => False
  end.
Proof.
  intros Hwf. revert additional.
  induction Hwf as [|e errors (d & -> & Hmsg) _ IH]; intros additional; simpl.
  - by intros ?%Exists_nil.
  - assert (∀ b, ¬ retryable_error (JDict d) →
              match scan_errors errors b with
              | ForceRetry => Exists retryable_error (JDict d :: errors)
              | NoRetry _ => ¬ Exists retryable_error (JDict d :: errors)
              | _ => False
              end) as Hrest.
    { intros b Hn. specialize (IH b). destruct (scan_errors errors b); try done.
      - by apply Exists_cons_tl.
      - by intros [?|?]%Exists_cons. }
    destruct (d !! "message") as [v|] eqn:Hv.
    + destruct (Hmsg v eq_refl) as [s ->]. case_bool_decide as Hs.
      * apply Exists_cons_hd. by exists d, s.
      * assert (¬ retryable_error (JDict d)) as Hn.
        { intros (d' & s' & [= <-] & Hd' & Hs'). congruence. }
        destruct (substring_of s _); by apply Hrest.
    + apply Hrest. intros (d' & s' & [= <-] & Hd' & Hs'). congruence.
Qed.

(** Responses without an [errors] entry are passed over. *)
Lemma check_responses_skip (before : list (gmap string Json)) (rest : list Json) :
  Forall (λ r, r !! "errors" = None) before →
  check_responses ((JDict <$> before) ++ rest) = check_responses rest.
Proof.
  induction 1 as [|r before Hr _ IH]; [done|]. simpl. by rewrite Hr.
Qed.

Definition answer (r : Json) : nat → attempt := λ _, Response r.

Definition error_of (message : string) : Json := JDict {[ "message" := JStr message ]}.

Definition response_with (errors : list Json) : Json :=
  JDict {[ "errors" := JList errors; "data" := JNull ]}.

Definition ops_example : Json := JDict {[ "operationName" := JStr "Inventory" ]}.

(** A batch of two responses: the first has an error that is not one of the
    three, the second a "service timeout". *)
Definition mixed_batch : Json :=
  JList [response_with [error_of "server error"];
         response_with [error_of "service timeout"]].

(** Some error of some response of the batch has one of the three messages. *)
Definition has_retry_message (e : Json) : bool :=
  match e with
  | JDict d =>
      match d !! "message" with
      | Some (JStr s) => bool_decide (s ∈ retry_messages)
      | _ => false
      end
  | _ => false
  end.

Definition some_retry_message (response_json : Json) : bool :=
  existsb (λ r, match r with
                | JDict m =>
                    match m !! "errors" with
                    | Some (JList errors) => existsb has_retry_message errors
                    | _ => false
                    end
                | _ => false
                end)
    (response_list_of response_json).

Example retry_then_return :
  gql_request ops_example [1#2; 1; 2]%Q
    (λ k, match k with
          | 0 => Response (response_with [error_of "service timeout"])
          | _ => Response (JDict {[ "data" := JNull ]})
          end) 0
  = ([Request ops_example; Sleep (1#2); Request ops_example],
     Returned (JDict {[ "data" := JNull ]})).
Proof. vm_compute. reflexivity. Qed.


(** C4, as the claim states it, fails on a batch whose first response carries
    an error that is not one of the three while a later response carries a
    "service timeout": the first response with errors decides, and the
    request raises. *)
Lemma gql_mixed_batch_raises :
  some_retry_message mixed_batch = true ∧
  gql_request ops_example [1#2; 1]%Q (answer mixed_batch) 0
  = ([Request ops_example],
     Raised (GqlError (JList [error_of "server error"]) false)).
Proof. split; vm_compute; reflexivity. Qed.

(** C4 (amended). An answer none of whose responses has an [errors] entry is
    returned as it came. Otherwise the first response with an [errors] entry
    decides: when one of its errors has one of the three messages, the
    request sleeps for the delay and sends the same operations again; when
    none has, it raises the [MinerException] that carries the error list of
    that response. *)
Theorem gql_request_errors (ops : Json) (delay : Q) (backoff : list Q)
    (answers : nat → attempt) (k : nat) (response_json : Json) :
  answers k = Response response_json →
  (∀ responses : list (gmap string Json),
     response_list_of response_json = JDict <$> responses →
     Forall (λ r, r !! "errors" = None) responses →
     gql_request ops (delay :: backoff) answers k
     = ([Request ops], Returned response_json)) ∧
  (∀ (before : list (gmap string Json)) (r : gmap string Json)
     (errors after : list Json),
     response_list_of response_json = (JDict <$> before) ++ JDict r :: after →
     Forall (λ b, b !! "errors" = None) before →
     r !! "errors" = Some (JList errors) →
     graphql_errors errors →
     (Exists retryable_error errors →
      gql_request ops (delay :: backoff) answers k
      = (Request ops :: Sleep delay :: (gql_request ops backoff answers (S k)).1,
         (gql_request ops backoff answers (S k)).2)) ∧
     (¬ Exists retryable_error errors →
      ∃ help, gql_request ops (delay :: backoff) answers k
              = ([Request ops], Raised (GqlError (JList errors) help)))).
Proof.
  intros Hk. split.
  - intros responses Hlist Hnone. simpl. rewrite Hk, Hlist.
    rewrite <-(app_nil_r (JDict <$> responses)), check_responses_skip by done.
    done.
  - intros before r errors after Hlist Hnone Herr Hwf. simpl.
    rewrite Hk, Hlist, check_responses_skip by done. simpl. rewrite Herr.
    pose proof (scan_errors_spec errors false Hwf) as Hscan.
    destruct (scan_errors errors false) as [|help| |]; try done.
    + split; [|done]. intros _.
      by destruct (gql_request ops backoff answers (S k)).
    + split; [done|]. intros _. by exists help.
Qed.

Lemma gql_request_errors_witness :
  gql_request ops_example [1#2; 1]%Q
    (answer (response_with [error_of "server error"; error_of "service timeout"])) 0
  = (Request ops_example :: Sleep (1#2)
       :: (gql_request ops_example [1%Q]
             (answer (response_with [error_of "server error";
                                     error_of "service timeout"])) 1).1,
     (gql_request ops_example [1%Q]
        (answer (response_with [error_of "server error";
                                error_of "service timeout"])) 1).2).
Proof.
  refine (proj1 (proj2 (gql_request_errors ops_example (1#2) [1%Q]
                          (answer (response_with [error_of "server error";
                                                  error_of "service timeout"]))
                          0 _ eq_refl)
                   [] {[ "errors" := JList [error_of "server error";
                                            error_of "service timeout"];
                         "data" := JNull ]}
                   [error_of "server error"; error_of "service timeout"] []
                   eq_refl _ eq_refl _) _).
  - constructor.
  - repeat constructor; eexists; (split; [reflexivity|]);
      intros v Hv; vm_compute in Hv; injection Hv as <-; eauto.
  - apply Exists_cons_tl, Exists_cons_hd.
    eexists _, "service timeout". split; [reflexivity|]. split; [reflexivity|].
    unfold retry_messages. set_solver.
Defined.

End GqlClaims.

(** ** More on GQL requests: the budget of attempts, and the help text *)

Module GqlMore.
Import Gql GqlClaims.

(** The requests sent and the delays slept, in order. *)
Definition requests (events : list event) : nat :=
  length (omap (λ e, match e with Request ops => Some ops | Sleep _ => None end)
            events).

Definition sleeps (events : list event) : list Q :=
  omap (λ e, match e with Sleep d => Some d | Request _ => None end) events.

Lemma requests_request ops events :
  requests (Request ops :: events) = S (requests events).
Proof. done. Qed.

Lemma requests_sleep delay events :
  requests (Sleep delay :: events) = requests events.
Proof. done. Qed.

(** The message of an error is contained in ["PersistedQueryNotFound"]. *)
Definition has_help_message (e : Json) : bool :=
  match e with
  | JDict d =>
      match d !! "message" with
      | Some (JStr s) => substring_of s "PersistedQueryNotFound"
      | _ => false
      end
  | _ => false
  end.

Lemma scan_errors_help (errors : list Json) (additional : bool) :
  graphql_errors errors → ¬ Exists retryable_error errors →
  scan_errors errors additional
  = NoRetry (additional || existsb has_help_message errors).
Proof.
  intros Hwf. revert additional.
  induction Hwf as [|e errors (d & -> & Hmsg) _ IH]; intros additional Hno.
  { simpl. by rewrite orb_false_r. }
  assert (¬ Exists retryable_error errors) as Hno'.
  { intros ?. apply Hno. by apply Exists_cons_tl. }
  simpl. destruct (d !! "message") as [v|] eqn:Hv.
  - destruct (Hmsg v eq_refl) as [s ->]. case_bool_decide as Hs.
    { destruct Hno. apply Exists_cons_hd. by exists d, s. }
    destruct (substring_of s _); rewrite IH by done; simpl;
      by rewrite ?orb_true_r.
  - by rewrite IH.
Qed.

(** X16. [gql_request] sends at most as many requests as the backoff yields
    delays, and sleeps only delays of the backoff, in its order. What it
    returns is the answer to one of its requests, and an answer without
    errors. When every request is invalid it sends one request per delay,
    never sleeps, and raises the bare [MinerException]. *)
Theorem gql_request_budget (ops : Json) (backoff : list Q)
    (answers : nat → attempt) (k : nat) :
  let events := (gql_request ops backoff answers k).1 in
  let o := (gql_request ops backoff answers k).2 in
  requests events ≤ length backoff ∧
  sublist (sleeps events) backoff ∧
  (∀ response, o = Returned response →
     ∃ j, k ≤ j < k + length backoff ∧ answers j = Response response ∧
          check_responses (response_list_of response) = Some Return) ∧
  ((∀ j, answers j = RequestInvalid) →
   events = replicate (length backoff) (Request ops) ∧
   o = Raised (MinerException "")).
Proof.
  revert k. induction backoff as [|delay backoff IH]; intros k.
  { simpl. repeat split; try done; lia. }
  specialize (IH (S k)). simpl.
  destruct (gql_request ops backoff answers (S k)) as [events o] eqn:Hrec.
  simpl in IH. destruct IH as (Hreq & Hsl & Hret & Hinv).
  assert (∀ response, o = Returned response →
            ∃ j, k ≤ j < k + S (length backoff) ∧ answers j = Response response ∧
                 check_responses (response_list_of response) = Some Return)
    as Hret'.
  { intros response Ho. destruct (Hret response Ho) as (j & ? & ? & ?).
    exists j. split; [lia|done]. }
  destruct (answers k) as [|response_json] eqn:Hk; simpl.
  - split; [rewrite ?requests_request, ?requests_sleep; lia|]. split; [by apply sublist_cons|].
    split; [done|]. intros Hall. destruct (Hinv Hall) as [-> ->]. done.
  - assert ((∀ j, answers j = RequestInvalid) → False) as Hnot.
    { intros Hall. by rewrite Hall in Hk. }
    destruct (check_responses (response_list_of response_json))
      as [[| |e]|] eqn:Hc; simpl.
    + split; [rewrite requests_request; unfold requests; simpl; lia|]. split; [apply sublist_nil_l|].
      split; [|by intros ?%Hnot]. intros response [= <-]. exists k.
      split; [lia|done].
    + split; [rewrite ?requests_request, ?requests_sleep; lia|]. split; [by apply sublist_skip|].
      split; [done|]. by intros ?%Hnot.
    + split; [rewrite requests_request; unfold requests; simpl; lia|]. split; [apply sublist_nil_l|].
      split; [done|]. by intros ?%Hnot.
    + split; [rewrite requests_request; unfold requests; simpl; lia|]. split; [apply sublist_nil_l|].
      split; [done|]. by intros ?%Hnot.
Qed.

(** X17. When the first response with errors has no error with one of the
    three retry messages, the exception carries the help text about
    persisted queries exactly when the message of one of these errors is
    contained in ["PersistedQueryNotFound"] (the test reads
    [message in "PersistedQueryNotFound"]): the empty message and the word
    itself bring it up, a longer message that contains the word does not. *)
Theorem gql_help_text (ops : Json) (delay : Q) (backoff : list Q)
    (answers : nat → attempt) (k : nat) (response_json : Json)
    (before : list (gmap string Json)) (r : gmap string Json)
    (errors after : list Json) :
  answers k = Response response_json →
  response_list_of response_json = (JDict <$> before) ++ JDict r :: after →
  Forall (λ b, b !! "errors" = None) before →
  r !! "errors" = Some (JList errors) →
  graphql_errors errors → ¬ Exists retryable_error errors →
  gql_request ops (delay :: backoff) answers k
  = ([Request ops],
     Raised (GqlError (JList errors) (existsb has_help_message errors))) ∧
  has_help_message (error_of "") = true ∧
  has_help_message (error_of "PersistedQueryNotFound") = true ∧
  has_help_message (error_of "PersistedQueryNotFound: Inventory") = false.
Proof.
  intros Hk Hlist Hnone Herr Hwf Hno. split; [|by vm_compute].
  simpl. rewrite Hk, Hlist, check_responses_skip by done. simpl.
  by rewrite Herr, scan_errors_help.
Qed.

Lemma gql_help_text_witness :
  gql_request ops_example [1#2; 1]%Q (answer (response_with [error_of ""])) 0
  = ([Request ops_example], Raised (GqlError (JList [error_of ""]) true)).
Proof.
  refine (proj1 (gql_help_text ops_example (1#2) [1%Q]
                   (answer (response_with [error_of ""])) 0 _
                   [] {[ "errors" := JList [error_of ""]; "data" := JNull ]}
                   [error_of ""] [] eq_refl eq_refl _ eq_refl _ _)).
  - constructor.
  - repeat constructor. eexists. split; [reflexivity|].
    intros v Hv. vm_compute in Hv. injection Hv as <-. eauto.
  - intros [(d & s & [= <-] & Hd & Hs)|Hnil%Exists_nil]%Exists_cons; [|done].
    vm_compute in Hd. injection Hd as <-.
    unfold retry_messages in Hs. set_solver.
Defined.

End GqlMore.

(** ** The priority scores ([priority_algorithms.py], [twitch/drops.py],
       the GAMES_UPDATE branch of [Twitch._run]) *)

Module Priority.

Local Open Scope Q_scope.

(** The fields of a campaign that the scores read. A [datetime] is its number
    of microseconds since the epoch. *)
Record Campaign : Type := {
  ends_at : Z;
  remaining_minutes : Z;
}.

(** [sys.maxsize] of a 64-bit build. *)
Definition sys_maxsize : Z := 2 ^ 63 - 1.

(** A score: [-float('inf')] or a finite number. Floating-point rounding is
    not modelled: a finite number is carried by its exact value, and the
    arithmetic is that of the rationals. *)
Inductive score : Type :=
  | NegInf
  | Num (q : Q).

(** [(campaign.ends_at - current_time).total_seconds() / 3600] *)
Definition time_remaining_hours (campaign : Campaign) (current_time : Z) : Q :=
  inject_Z (ends_at campaign - current_time) / 1000000 / 3600.

(** [min(100, max(0, 100 * (1 - (time_remaining_hours / 72))))] *)
Definition time_urgency_score (time_remaining_hours : Q) : Q :=
  let max_urgency_window := 72 in
  let time_urgency_score :=
    Qmax 0 (100 * (1 - (time_remaining_hours / max_urgency_window))) in
  Qmin 100 time_urgency_score.

(** [Calculate_Balanced_Priority] of [priority_algorithms.py];
    [current_time] is what [datetime.now] gives. *)
Definition Calculate_Balanced_Priority (campaign : Campaign)
    (user_priority priority_list_length : Z) (current_time : Z) : result score :=
  let time_remaining_hours := time_remaining_hours campaign current_time in
  if Qle_bool time_remaining_hours 0 then Ok (Num (inject_Z (- sys_maxsize)))
  else
    let time_urgency_score := time_urgency_score time_remaining_hours in
    let inverted_priority := (priority_list_length - user_priority + 1)%Z in
    if (priority_list_length =? 0)%Z then Raise ZeroDivisionError
    else
      let priority_score :=
        (inject_Z inverted_priority / inject_Z priority_list_length) * 100 in
      let priority_weight := 60 # 100 in
      let time_weight := 40 # 100 in
      let blended_score :=
        (priority_weight * priority_score) + (time_weight * time_urgency_score) in
      let final_score :=
        (blended_score / 100) * inject_Z inverted_priority
        + (blended_score * (1 # 10)) in
      Ok (Num final_score).

(** [max(0, 1 - H / (hours_needed * 1.2)) if hours_needed > 0 else 0] *)
Definition time_risk (time_remaining_hours : Q) (minutes_needed : Z) : Q :=
  let hours_needed := inject_Z minutes_needed / 60 in
  let buffer_factor := 12 # 10 in
  if Qle_bool hours_needed 0 then 0
  else Qmax 0 (1 - (time_remaining_hours / (hours_needed * buffer_factor))).

(** [Calculate_Adaptive_Priority] of [priority_algorithms.py]. *)
Definition Calculate_Adaptive_Priority (campaign : Campaign)
    (user_priority priority_list_length : Z) (current_time : Z) : result score :=
  let time_remaining_hours := time_remaining_hours campaign current_time in
  if Qle_bool time_remaining_hours 0 then Ok (Num (inject_Z (- sys_maxsize)))
  else
    let time_risk := time_risk time_remaining_hours (remaining_minutes campaign) in
    let inverted_priority := (priority_list_length - user_priority + 1)%Z in
    let priority_boost := inject_Z inverted_priority * time_risk * 10 in
    let final_score := inject_Z inverted_priority + priority_boost in
    Ok (Num final_score).

(** [DropsManager._calculate_weighted_priority] *)
Definition DropsManager_calculate_weighted_priority (campaign : Campaign)
    (user_priority : Z) (current_time : Z) : score :=
  let time_remaining_hours := time_remaining_hours campaign current_time in
  if Qle_bool time_remaining_hours 0 then NegInf
  else
    let time_urgency_score := time_urgency_score time_remaining_hours in
    let max_expected_priority := Z.max 10 user_priority in
    let priority_score :=
      (inject_Z user_priority / inject_Z max_expected_priority) * 100 in
    let priority_weight := 60 # 100 in
    let time_weight := 40 # 100 in
    let blended_score :=
      (priority_weight * priority_score) + (time_weight * time_urgency_score) in
    let final_score :=
      (blended_score / 100) * inject_Z user_priority + (blended_score * (1 # 10)) in
    Num final_score.

(** [DropsManager._calculate_smart_priority] *)
Definition DropsManager_calculate_smart_priority (campaign : Campaign)
    (user_priority : Z) (current_time : Z) : score :=
  let time_remaining_hours := time_remaining_hours campaign current_time in
  if Qle_bool time_remaining_hours 0 then NegInf
  else
    let time_risk := time_risk time_remaining_hours (remaining_minutes campaign) in
    let priority_boost := inject_Z user_priority * time_risk * 10 in
    let final_score := inject_Z user_priority + priority_boost in
    Num final_score.

(** [Twitch._calculate_weighted_priority] and [Twitch._calculate_smart_priority]:
    [float(user_priority)]. *)
Definition Twitch_calculate_weighted_priority (campaign : Campaign)
    (user_priority : Z) : Q := inject_Z user_priority.

Definition Twitch_calculate_smart_priority (campaign : Campaign)
    (user_priority : Z) : Q := inject_Z user_priority.

(** The value that the GAMES_UPDATE branch of [Twitch._run] stores in
    [wanted_games] for the [i]-th of the [n] filtered campaigns, whose game
    has the priority [game_priority] in the user's list (0 when absent). For
    ENDING_SOONEST the campaigns are sorted by [ends_at] first. *)
Definition wanted_score `{AlgorithmNames} (priority_algorithm : string)
    (i n : nat) (campaign : Campaign) (game_priority : Z) (current_time : Z) : Q :=
  if String.eqb priority_algorithm PRIORITY_ALGORITHM_ENDING_SOONEST then
    if (game_priority =? 0)%Z then - inject_Z (Z.of_nat i)
    else inject_Z (Z.of_nat n - Z.of_nat i)
  else if String.eqb priority_algorithm PRIORITY_ALGORITHM_BALANCED then
    if (game_priority =? 0)%Z then - time_remaining_hours campaign current_time
    else Twitch_calculate_weighted_priority campaign game_priority
  else if String.eqb priority_algorithm PRIORITY_ALGORITHM_ADAPTIVE then
    if (game_priority =? 0)%Z then - time_remaining_hours campaign current_time
    else Twitch_calculate_smart_priority campaign game_priority
  else
    if (game_priority =? 0)%Z then - inject_Z (Z.of_nat i)
    else inject_Z game_priority.

(** The key of the BALANCED algorithm, in the words of the specification:
    [H] hours until [ends_at], the index [user_index] in a priority list of
    length [L]. *)
Definition balanced_key (H : Q) (user_index L : Z) : Q :=
  let invP := inject_Z (L - user_index + 1) in
  let P := (invP / inject_Z L) * 100 in
  let U := Qmin 100 (Qmax 0 (100 * (1 - H / 72))) in
  let blend := (60 # 100) * P + (40 # 100) * U in
  blend / 100 * invP + (1 # 10) * blend.

End Priority.

Module PriorityClaims.
Import Priority.
Local Open Scope Q_scope.

Lemma expired_hours (campaign : Campaign) (current_time : Z) :
  (ends_at campaign ≤ current_time)%Z ↔
  Qle_bool (time_remaining_hours campaign current_time) 0 = true.
Proof.
  rewrite Qle_bool_iff. unfold time_remaining_hours, Qdiv, Qle. simpl.
  rewrite !Z.mul_1_r. lia.
Qed.

Definition expired : Campaign := {| ends_at := 1000000; remaining_minutes := 30 |}.
Definition running : Campaign := {| ends_at := 7200000000; remaining_minutes := 30 |}.

Definition score_eq (r : result score) (q : Q) : Prop :=
  match r with
  | Ok (Num q') => q' == q
  | _ => False
  end.

Example balanced_running :
  score_eq (Calculate_Balanced_Priority running 1 2 0) (178 # 15).
Proof. vm_compute. reflexivity. Qed.

Example adaptive_running :
  score_eq (Calculate_Adaptive_Priority running 1 2 0) 2.
Proof. vm_compute. reflexivity. Qed.

(** A client under the LIST algorithm whose one wanted game, of id 1, got its
    value in GAMES_UPDATE at time 0, when its campaign [running] had not ended;
    channels of that game and of another one. *)
Definition scored_at_zero : Client.Twitch :=
  {| Client.priority_algorithm := "LIST";
     Client.wanted_games :=
       {[ 1%Z := @wanted_score ClientClaims.names "LIST" 0 1 running 2 0 ]};
     Client.watching_channel := Client.PyNone |}.

Definition channel_of_game (id : Z) : Client.Channel :=
  {| Client.channel_id := id;
     Client.game := Some {| Client.game_id := id; Client.game_name := "Game" |};
     Client.viewers := None;
     Client.acl_based := false |}.

(** C5, as the claim states it, fails: [Twitch.get_priority] looks neither
    at the time nor at the end of a campaign. Once the campaign [running] has
    ended, a channel of its game still has the priority that was stored while
    it ran, above that of a channel of a game that is not wanted: no smallest
    value. *)
Lemma get_priority_no_sentinel :
  (0 < ends_at running ≤ 7200000001)%Z ∧
  @Client.get_priority ClientClaims.names scored_at_zero (channel_of_game 1) == 2 ∧
  @Client.get_priority ClientClaims.names scored_at_zero (channel_of_game 2) == 0.
Proof. split; [vm_compute; split; [reflexivity|discriminate]|]. split; reflexivity. Qed.

(** C5 (amended). For a campaign whose [ends_at] is at or before the current
    time, the BALANCED and ADAPTIVE functions of [priority_algorithms.py]
    return the sentinel [-sys.maxsize] and those of [DropsManager] return
    minus infinity. [Twitch.get_priority] has no sentinel under any of the
    four algorithms: whatever the time, it returns the [wanted_games] entry of
    the game of the channel as it was stored, with the viewers bonus on top
    under ADAPTIVE. *)
Theorem expired_scores `{AlgorithmNames} (campaign : Campaign)
    (user_priority priority_list_length : Z) (current_time : Z) :
  (ends_at campaign ≤ current_time)%Z →
  Calculate_Balanced_Priority campaign user_priority priority_list_length
    current_time = Ok (Num (inject_Z (- sys_maxsize))) ∧
  Calculate_Adaptive_Priority campaign user_priority priority_list_length
    current_time = Ok (Num (inject_Z (- sys_maxsize))) ∧
  DropsManager_calculate_weighted_priority campaign user_priority current_time
    = NegInf ∧
  DropsManager_calculate_smart_priority campaign user_priority current_time
    = NegInf ∧
  (∀ self channel g stored,
     Client.game channel = Some g →
     Client.wanted_games self !! Client.game_id g = Some stored →
     (Client.priority_algorithm self ≠ PRIORITY_ALGORITHM_ADAPTIVE →
      Client.get_priority self channel = stored) ∧
     (match Client.viewers channel with
      | Some v => (0 ≤ v)%Z
      | None => True
      end →
      stored <= Client.get_priority self channel)).
Proof.
  intros Hexp%expired_hours.
  unfold Calculate_Balanced_Priority, Calculate_Adaptive_Priority,
    DropsManager_calculate_weighted_priority,
    DropsManager_calculate_smart_priority.
  rewrite Hexp. do 4 (split; [done|]).
  intros self channel g stored Hg Hstored.
  assert (Client._get_list_priority self channel = stored) as Hlist.
  { unfold Client._get_list_priority. by rewrite Hg, Hstored. }
  split.
  - intros Hne. unfold Client.get_priority.
    destruct (String.eqb_spec (Client.priority_algorithm self)
                PRIORITY_ALGORITHM_LIST); [done|].
    destruct (String.eqb_spec (Client.priority_algorithm self)
                PRIORITY_ALGORITHM_ADAPTIVE); [done|].
    by repeat case_match.
  - intros Hv.
    assert (stored <= Client._get_adaptive_priority self channel) as Hadaptive.
    { unfold Client._get_adaptive_priority. rewrite Hlist.
      destruct (Client.viewers channel) as [v|]; [|apply Qle_refl].
      destruct (v =? 0)%Z; [apply Qle_refl|].
      assert (0 <= inject_Z (Z.min (v / 1000) 10)) as Hb.
      { rewrite <-(Zle_Qle 0). assert (0 ≤ v / 1000)%Z by (apply Z.div_pos; lia).
        lia. }
      clear -Hb. lra. }
    unfold Client.get_priority, Client._get_balanced_priority,
      Client._get_ending_soonest_priority.
    repeat case_match; rewrite ?Hlist; try done; apply Qle_refl.
Qed.

Lemma expired_scores_witness :
  Calculate_Balanced_Priority expired 1 2 2000000
  = Ok (Num (inject_Z (- sys_maxsize))).
Proof.
  refine (proj1 (@expired_scores ClientClaims.names expired 1 2 2000000 _)).
  vm_compute. discriminate.
Defined.

(** The key of [DropsManager._calculate_weighted_priority], written as the
    key of the specification is: the priority [p] it is given stands where
    [invP] does, and the priority score is taken out of [max(10, p)], not out
    of the length of the list. *)
Definition drops_balanced_key (H : Q) (p : Z) : Q :=
  let P := (inject_Z p / inject_Z (Z.max 10 p)) * 100 in
  let U := Qmin 100 (Qmax 0 (100 * (1 - H / 72))) in
  let blend := (60 # 100) * P + (40 # 100) * U in
  blend / 100 * inject_Z p + (1 # 10) * blend.

(** C6, as the claim states it, fails on the key that the client uses. For
    the first game of a priority list of two, whose list priority is
    [2 = L - user_index + 1], and a campaign with two hours to go, the
    specification gives [178/15]; under BALANCED the GAMES_UPDATE branch
    stores [Twitch._calculate_weighted_priority], which is [2.0], and
    [DropsManager._calculate_weighted_priority] gives [458/75]. *)
Lemma balanced_key_not_used :
  time_remaining_hours running 0 == 2 ∧
  balanced_key (time_remaining_hours running 0) 1 2 == 178 # 15 ∧
  @wanted_score ClientClaims.names "BALANCED" 0 2 running 2 0 == 2 ∧
  Twitch_calculate_weighted_priority running 2 == 2 ∧
  score_eq (Ok (DropsManager_calculate_weighted_priority running 2 0)) (458 # 75).
Proof. repeat split; vm_compute; reflexivity. Qed.

(** C6 (amended). For a campaign with [H > 0] hours until [ends_at], a
    priority index [user_index] and a priority list of length [L > 0],
    [Calculate_Balanced_Priority] of [priority_algorithms.py] returns
    [blend/100 * invP + 0.1 * blend] with [invP], [P], [U] and [blend] as
    the specification defines them. The two other BALANCED functions do not:
    [Twitch._calculate_weighted_priority], whose value the client stores,
    returns the priority it is given as a float, and
    [DropsManager._calculate_weighted_priority] returns the key with that
    priority [p] in the place of [invP] and [P = p / max(10, p) * 100]. *)
Theorem balanced_formula (campaign : Campaign) (user_index L : Z)
    (current_time : Z) :
  (current_time < ends_at campaign)%Z → (0 < L)%Z →
  let H := time_remaining_hours campaign current_time in
  (∃ key,
     Calculate_Balanced_Priority campaign user_index L current_time
     = Ok (Num key) ∧
     key == balanced_key H user_index L) ∧
  (∀ p, Twitch_calculate_weighted_priority campaign p == inject_Z p) ∧
  (∀ p, ∃ key,
     DropsManager_calculate_weighted_priority campaign p current_time = Num key ∧
     key == drops_balanced_key H p).
Proof.
  intros Hrun HL H.
  assert (Qle_bool H 0 = false) as Hexp.
  { apply not_true_iff_false. unfold H. rewrite <-expired_hours. lia. }
  split; [|split].
  - unfold Calculate_Balanced_Priority. fold H. rewrite Hexp.
    destruct (Z.eqb_spec L 0) as [->|_]; [lia|].
    eexists. split; [reflexivity|].
    unfold balanced_key, time_urgency_score. ring.
  - intros p. reflexivity.
  - intros p. unfold DropsManager_calculate_weighted_priority. fold H.
    rewrite Hexp. eexists. split; [reflexivity|].
    unfold drops_balanced_key, time_urgency_score. ring.
Qed.

Lemma balanced_formula_witness :
  ∃ key,
    Calculate_Balanced_Priority running 1 2 0 = Ok (Num key) ∧
    key == balanced_key (time_remaining_hours running 0) 1 2.
Proof.
  refine (proj1 (balanced_formula running 1 2 0 _ _)); vm_compute; reflexivity.
Defined.

End PriorityClaims.

(** ** More on the scores *)

Module PriorityMore.
Import Priority PriorityClaims.
Local Open Scope Q_scope.

Lemma running_hours (campaign : Campaign) (current_time : Z) :
  (current_time < ends_at campaign)%Z ↔
  0 < time_remaining_hours campaign current_time.
Proof.
  unfold time_remaining_hours, Qdiv, Qlt. simpl. rewrite !Z.mul_1_r. lia.
Qed.

Lemma running_not_expired (campaign : Campaign) (current_time : Z) :
  (current_time < ends_at campaign)%Z →
  Qle_bool (time_remaining_hours campaign current_time) 0 = false.
Proof.
  intros Hrun. apply not_true_iff_false. rewrite <-expired_hours. lia.
Qed.

Lemma Qmax_cases (a b : Q) : (a <= b ∧ Qmax a b == b) ∨ (b <= a ∧ Qmax a b == a).
Proof.
  destruct (Q.max_spec a b) as [[? ?]|[? ?]]; [left|right]; split; try done; lra.
Qed.

Lemma Qmin_cases (a b : Q) : (a <= b ∧ Qmin a b == a) ∨ (b <= a ∧ Qmin a b == b).
Proof.
  destruct (Q.min_spec a b) as [[? ?]|[? ?]]; [left|right]; split; try done; lra.
Qed.

(** The risk of [Calculate_Adaptive_Priority], on the hours that remain and
    the hours needed. *)
Definition time_risk_of (H hours_needed : Q) : Q :=
  if Qle_bool hours_needed 0 then 0
  else Qmax 0 (1 - (H / (hours_needed * (12 # 10)))).

Lemma div_const (a : Q) (p : positive) : a / (Zpos p # 1) == a * (1 # p).
Proof. reflexivity. Qed.

Lemma urgency_cases (h : Q) :
  (72 <= h ∧ time_urgency_score h == 0) ∨
  (0 <= h <= 72 ∧ time_urgency_score h == 100 * (1 - h * (1 # 72))) ∨
  (h <= 0 ∧ time_urgency_score h == 100).
Proof.
  unfold time_urgency_score. cbv zeta. rewrite div_const.
  destruct (Qmax_cases 0 (100 * (1 - h * (1 # 72)))) as [[H1 E1]|[H1 E1]];
    destruct (Qmin_cases 100 (Qmax 0 (100 * (1 - h * (1 # 72)))))
      as [[H2 E2]|[H2 E2]];
    rewrite E2; rewrite E1 in H2; rewrite ?E1.
  - right; right. split; [lra|done].
  - right; left. split; [lra|done].
  - lra.
  - left. split; [lra|done].
Qed.

(** X10. The urgency of the BALANCED scores lies between 0 and 100. It is 100
    for a campaign at its end, 0 from 72 hours before the end on, and never
    grows with the hours that remain. *)
Theorem time_urgency_bounds (h h' : Q) :
  0 <= time_urgency_score h <= 100 ∧
  (h <= 0 → time_urgency_score h == 100) ∧
  (72 <= h → time_urgency_score h == 0) ∧
  (h <= h' → time_urgency_score h' <= time_urgency_score h).
Proof.
  destruct (urgency_cases h) as [[? E]|[[? E]|[? E]]];
    destruct (urgency_cases h') as [[? E']|[[? E']|[? E']]];
    rewrite E; repeat split; intros; rewrite ?E'; lra.
Qed.

(** X11. On a campaign that has not ended, [Calculate_Balanced_Priority]
    with an empty priority list raises [ZeroDivisionError], whatever the
    priority; with a list that is not empty it returns a number. On a
    campaign that has ended it returns the sentinel without dividing. *)
Theorem balanced_empty_list (campaign : Campaign) (user_priority L : Z)
    (current_time : Z) :
  (current_time < ends_at campaign)%Z →
  Calculate_Balanced_Priority campaign user_priority 0 current_time
  = Raise ZeroDivisionError ∧
  (L ≠ 0%Z →
   ∃ q, Calculate_Balanced_Priority campaign user_priority L current_time
        = Ok (Num q)).
Proof.
  intros Hrun%running_not_expired. unfold Calculate_Balanced_Priority.
  rewrite Hrun. split; [done|]. intros HL.
  destruct (Z.eqb_spec L 0) as [|_]; [done|]. eauto.
Qed.

Lemma adaptive_score_bounds (invP H hn : Q) :
  0 < H →
  let q := invP + invP * time_risk_of H hn * 10 in
  (0 <= invP → invP <= q <= 11 * invP) ∧
  (hn <= 0 → q == invP) ∧
  (hn * (12 # 10) <= H → q == invP).
Proof.
  intros HH. unfold time_risk_of. destruct (Qle_bool hn 0) eqn:Hm.
  { cbv zeta. repeat split; intros; lra. }
  assert (0 < hn) as Hpos.
  { apply Qnot_le_lt. rewrite <-Qle_bool_iff. congruence. }
  clear Hm.
  assert (0 < hn * (12 # 10)) as Hpos' by lra.
  assert (0 <= H / (hn * (12 # 10))) as Hq.
  { apply Qle_shift_div_l; [done|]. lra. }
  assert (hn * (12 # 10) <= H → 1 <= H / (hn * (12 # 10))) as Hcov.
  { intros Hc. apply Qle_shift_div_l; [done|]. lra. }
  set (x := H / (hn * (12 # 10))) in *. clearbody x. cbv zeta.
  destruct (Qmax_cases 0 (1 - x)) as [[H1 E]|[H1 E]]; rewrite E; split.
  - intros Hup. split; nra.
  - split; [intros Hle; lra|]. intros Hcover. specialize (Hcov Hcover).
    assert (1 - x == 0) as -> by lra. ring.
  - intros Hup. split; lra.
  - split; intros; lra.
Qed.

(** X12. On a campaign that has not ended, [Calculate_Adaptive_Priority]
    returns [invP * (1 + 10 * risk)] for the inverted priority
    [invP = L - user_priority + 1] and a risk between 0 and 1: for a priority
    within the list the score lies between [invP] and [11 * invP]. It is
    [invP] itself when no minutes remain to be watched, or when the time that
    remains covers the minutes needed with the buffer of a fifth. *)
Theorem adaptive_bounds (campaign : Campaign) (user_priority L : Z)
    (current_time : Z) :
  (current_time < ends_at campaign)%Z →
  let invP := inject_Z (L - user_priority + 1) in
  let H := time_remaining_hours campaign current_time in
  ∃ q, Calculate_Adaptive_Priority campaign user_priority L current_time
       = Ok (Num q) ∧
    ((user_priority <= L + 1)%Z → invP <= q <= 11 * invP) ∧
    ((remaining_minutes campaign <= 0)%Z → q == invP) ∧
    (inject_Z (remaining_minutes campaign) / 60 * (12 # 10) <= H → q == invP).
Proof.
  intros Hrun invP H. pose proof (proj1 (running_hours _ _) Hrun) as HH.
  apply running_not_expired in Hrun.
  unfold Calculate_Adaptive_Priority. rewrite Hrun.
  eexists. split; [reflexivity|].
  destruct (adaptive_score_bounds invP H
              (inject_Z (remaining_minutes campaign) / 60) HH) as (Hb & H0 & Hc).
  split; [|split].
  - intros Hup. apply Hb. unfold invP. rewrite <-(Zle_Qle 0). lia.
  - intros Hle. apply H0. rewrite div_const.
    assert (inject_Z (remaining_minutes campaign) <= 0) as Hm.
    { by rewrite <-(Zle_Qle _ 0). }
    clear -Hm. lra.
  - exact Hc.
Qed.

(** X13. In the GAMES_UPDATE branch, under every algorithm, the campaign of
    a game on the priority list gets a higher [wanted_games] value than the
    campaign of a game that is not on it and has not ended: positive against
    at most 0. *)
Theorem listed_outranks_unlisted `{AlgorithmNames} (algorithm : string)
    (i j n : nat) (listed unlisted : Campaign) (game_priority : Z)
    (current_time : Z) :
  (1 <= game_priority)%Z → (i < n)%nat →
  (current_time <= ends_at unlisted)%Z →
  wanted_score algorithm j n unlisted 0 current_time <= 0 ∧
  0 < wanted_score algorithm i n listed game_priority current_time.
Proof.
  intros Hp Hi Hrun.
  assert (0 <= time_remaining_hours unlisted current_time) as HH.
  { unfold time_remaining_hours, Qdiv, Qle. simpl. rewrite !Z.mul_1_r. lia. }
  assert (0 < inject_Z game_priority) as Hgp.
  { rewrite <-(Zlt_Qlt 0). lia. }
  assert (inject_Z (Z.of_nat j) >= 0) as Hj.
  { rewrite <-(Zle_Qle 0). lia. }
  assert (0 < inject_Z (Z.of_nat n - Z.of_nat i)) as Hn.
  { rewrite <-(Zlt_Qlt 0). lia. }
  unfold wanted_score, Twitch_calculate_weighted_priority,
    Twitch_calculate_smart_priority.
  destruct (Z.eqb_spec game_priority 0) as [|_]; [lia|]. simpl.
  repeat case_match; split; lra.
Qed.

Lemma balanced_empty_list_witness :
  Calculate_Balanced_Priority running 1 0 0 = Raise ZeroDivisionError.
Proof.
  refine (proj1 (balanced_empty_list running 1 2 0 _)). vm_compute. reflexivity.
Defined.

Lemma adaptive_bounds_witness :
  ∃ q, Calculate_Adaptive_Priority running 1 2 0 = Ok (Num q).
Proof.
  destruct (adaptive_bounds running 1 2 0) as (q & Hq & _).
  - vm_compute. reflexivity.
  - by exists q.
Defined.

Lemma listed_outranks_unlisted_witness :
  0 < @wanted_score ClientClaims.names "LIST" 0 2 running 5 0.
Proof.
  refine (proj2 (@listed_outranks_unlisted ClientClaims.names "LIST" 0 1 2
                   running running 5 0 _ _ _)).
  - vm_compute. discriminate.
  - lia.
  - vm_compute. discriminate.
Defined.

End PriorityMore.

(** ** The inventory: maintenance triggers ([twitch/drops.py]) *)

Module Drops.

(** The fields of a [DropsCampaign] read here (the class is in
    [inventory.py], which is not among the sources). A [datetime] is its
    number of microseconds since the epoch. [can_earn_within] is the answer
    of the method of that name on the next hour. *)
Record DropsCampaign : Type := {
  can_earn_within : bool;
  time_triggers : gset Z;
}.

(** The loop [while self._mnt_triggers and self._mnt_triggers[0] <= now:
    self._mnt_triggers.pop(0)]. *)
Fixpoint trim (now : Z) (triggers : list Z) : list Z :=
  match triggers with
  | t :: rest => if (t <=? now)%Z then trim now rest else triggers
  | [] => []
  end.

(** [switch_triggers], the set gathered by the loop over the campaigns. *)
Definition switch_triggers (campaigns : list DropsCampaign) : gset Z :=
  ⋃ (time_triggers <$> filter (λ c, can_earn_within c = true) campaigns).

(** [_mnt_triggers] at the end of [fetch_inventory]: the sorted set, with the
    triggers that are past trimmed from the front. *)
Definition maintenance_triggers (campaigns : list DropsCampaign) (now : Z)
    : list Z :=
  trim now (merge_sort Z.le (elements (switch_triggers campaigns))).

End Drops.

Module DropsMore.
Import Drops.

Lemma filter_all {A : Type} (P : A → Prop) `{∀ x, Decision (P x)} (l : list A) :
  Forall P l → filter P l = l.
Proof.
  induction 1 as [|x l Hx _ IH]; [done|]. by rewrite filter_cons_True, IH.
Qed.

Lemma trim_filter (now : Z) (l : list Z) :
  Sorted Z.le l → trim now l = filter (λ t, (now < t)%Z) l.
Proof.
  induction 1 as [|t l Hs IH Hhd]; [done|]. simpl.
  destruct (Z.leb_spec t now) as [Hle|Hgt].
  - rewrite filter_cons_False by lia. done.
  - assert (StronglySorted Z.le (t :: l)) as Hss.
    { apply Sorted_StronglySorted; [intros ???; lia|by constructor]. }
    symmetry. apply filter_all. constructor; [done|].
    apply StronglySorted_inv in Hss as [_ Hall].
    eapply Forall_impl; [done|]. simpl. intros; lia.
Qed.

(** X18. The maintenance triggers left by [fetch_inventory] are the time
    triggers, later than now, of the campaigns that can be earned within the
    next hour: each of them once, in increasing order. Trimming the front of
    the sorted list removes every trigger that is past, and no other. *)
Theorem maintenance_triggers_spec (campaigns : list DropsCampaign) (now : Z) :
  StronglySorted Z.lt (maintenance_triggers campaigns now) ∧
  ∀ t, t ∈ maintenance_triggers campaigns now ↔
       (now < t)%Z ∧
       ∃ c, c ∈ campaigns ∧ can_earn_within c = true ∧ t ∈ time_triggers c.
Proof.
  unfold maintenance_triggers.
  set (S := switch_triggers campaigns).
  pose proof (merge_sort_Permutation Z.le (elements S)) as Hperm.
  assert (Sorted Z.le (merge_sort Z.le (elements S))) as Hsorted.
  { apply Sorted_merge_sort. intros x y. lia. }
  rewrite trim_filter by done. split.
  - assert (NoDup (merge_sort Z.le (elements S))) as Hnd.
    { rewrite Hperm. apply NoDup_elements. }
    assert (StronglySorted Z.le (merge_sort Z.le (elements S))) as Hss.
    { apply Sorted_StronglySorted; [intros ???; lia|done]. }
    revert Hnd Hss. generalize (merge_sort Z.le (elements S)). clear.
    induction l as [|x l IH]; intros Hnd Hss; [constructor|].
    apply NoDup_cons in Hnd as [Hx Hnd].
    apply StronglySorted_inv in Hss as [Hss Hall].
    specialize (IH Hnd Hss). rewrite filter_cons. case_decide; [|done].
    constructor; [done|]. apply Forall_forall. intros y Hy.
    apply list_elem_of_filter in Hy as [_ Hy].
    rewrite Forall_forall in Hall. specialize (Hall y Hy).
    assert (x ≠ y) by (by intros ->). lia.
  - intros t. rewrite list_elem_of_filter, Hperm, elem_of_elements.
    unfold S, switch_triggers. rewrite elem_of_union_list.
    split.
    + intros [Hlt (X & HX & Ht)]. split; [done|].
      apply list_elem_of_fmap in HX as (c & -> & Hc).
      apply list_elem_of_filter in Hc as [Hearn Hc]. eauto.
    + intros [Hlt (c & Hc & Hearn & Ht)]. split; [done|].
      exists (time_triggers c). split; [|done].
      apply list_elem_of_fmap. exists c. split; [done|].
      by apply list_elem_of_filter.
Qed.

End DropsMore.

(** ** Settings ([settings.py]) *)

Module Settings.

(** The part of a [Settings] object that [__get_settings_from_env__] reads and
    writes: the loaded settings file and the dirty flag. *)
Record t : Type := {
  _settings : gmap string Json;
  _altered : bool;
}.

(** [Settings.__get_settings_from_env__]; [environ] is [os.environ]. *)
Definition __get_settings_from_env__ `{AlgorithmNames}
    (environ : gmap string string) (self : t) : t :=
  let settings := _settings self in
  let settings :=
    if bool_decide (environ !! "prioritize_by_ending_soonest" = Some "1")
    then <["priority_algorithm" := JStr PRIORITY_ALGORITHM_ENDING_SOONEST]> settings
    else settings in
  let settings :=
    if bool_decide (environ !! "UNLINKED_CAMPAIGNS" = Some "1")
    then <["unlinked_campaigns" := JBool true]> settings
    else settings in
  (* Migration: convert old prioritize_by_ending_soonest to new priority_algorithm *)
  match settings !! "priority_algorithm" with
  | Some _ => {| _settings := settings; _altered := _altered self |}
  | None =>
      match settings !! "prioritize_by_ending_soonest" with
      | Some legacy =>
          let settings :=
            if truthy legacy
            then <["priority_algorithm" := JStr PRIORITY_ALGORITHM_ENDING_SOONEST]> settings
            else settings in
          (* remove the old setting *)
          {| _settings := delete "prioritize_by_ending_soonest" settings;
             _altered := true |}
      | None =>
          {| _settings := <["priority_algorithm" := JStr PRIORITY_ALGORITHM_LIST]> settings;
             _altered := _altered self |}
      end
  end.

(** [Settings.__init__], after [json_load] (of [utils.py], not among the
    sources) has given [loaded]: the migration runs, then the dirty flag is
    reset. *)
Definition __init__ `{AlgorithmNames} (environ : gmap string string)
    (loaded : gmap string Json) : t :=
  let self := {| _settings := loaded; _altered := false |} in
  let self := __get_settings_from_env__ environ self in
  {| _settings := _settings self; _altered := false |}.

End Settings.

Module SettingsClaims.
Import Settings.

Definition loaded (settings : gmap string Json) : t :=
  {| _settings := settings; _altered := false |}.

(** A settings file that has both keys. *)
Definition both_keys : gmap string Json :=
  {[ "priority_algorithm" := JStr "LIST";
     "prioritize_by_ending_soonest" := JBool true ]}.

Definition legacy_only : gmap string Json :=
  {[ "prioritize_by_ending_soonest" := JBool true; "priority_only" := JBool true ]}.

Example migrate_legacy :
  _settings (@__get_settings_from_env__ ClientClaims.names ∅ (loaded legacy_only))
  = {[ "priority_algorithm" := JStr "ENDING_SOONEST"; "priority_only" := JBool true ]}.
Proof. vm_compute. reflexivity. Qed.

(** C8, as the claim states it, fails on a settings file that already has
    [priority_algorithm]: the migration is skipped, the algorithm stays what it
    was and the legacy key is kept. *)
Lemma migration_skipped :
  is_Some (both_keys !! "prioritize_by_ending_soonest") ∧
  _settings (@__get_settings_from_env__ ClientClaims.names ∅ (loaded both_keys))
  = both_keys.
Proof. split; [by eexists|]. vm_compute. reflexivity. Qed.

Section claims.
Context `{AlgorithmNames}.

(** The settings after the two environment overrides. *)
Definition apply_env (environ : gmap string string) (settings : gmap string Json)
    : gmap string Json :=
  let settings :=
    if bool_decide (environ !! "prioritize_by_ending_soonest" = Some "1")
    then <["priority_algorithm" := JStr PRIORITY_ALGORITHM_ENDING_SOONEST]> settings
    else settings in
  if bool_decide (environ !! "UNLINKED_CAMPAIGNS" = Some "1")
  then <["unlinked_campaigns" := JBool true]> settings
  else settings.

Lemma get_settings_from_env_unfold environ self :
  __get_settings_from_env__ environ self =
  let settings := apply_env environ (_settings self) in
  match settings !! "priority_algorithm" with
  | Some _ => {| _settings := settings; _altered := _altered self |}
  | None =>
      match settings !! "prioritize_by_ending_soonest" with
      | Some legacy =>
          {| _settings :=
               delete "prioritize_by_ending_soonest"
                 (if truthy legacy
                  then <["priority_algorithm" :=
                           JStr PRIORITY_ALGORITHM_ENDING_SOONEST]> settings
                  else settings);
             _altered := true |}
      | None =>
          {| _settings :=
               <["priority_algorithm" := JStr PRIORITY_ALGORITHM_LIST]> settings;
             _altered := _altered self |}
      end
  end.
Proof. done. Qed.

Lemma apply_env_algorithm environ settings :
  environ !! "prioritize_by_ending_soonest" = Some "1" →
  apply_env environ settings !! "priority_algorithm"
  = Some (JStr PRIORITY_ALGORITHM_ENDING_SOONEST).
Proof.
  intros He. unfold apply_env. rewrite (bool_decide_eq_true_2 _ He).
  case_bool_decide; [rewrite lookup_insert_ne by done|]; by rewrite lookup_insert_eq.
Qed.

Lemma apply_env_unlinked environ settings :
  environ !! "UNLINKED_CAMPAIGNS" = Some "1" →
  apply_env environ settings !! "unlinked_campaigns" = Some (JBool true).
Proof.
  intros He. unfold apply_env. rewrite (bool_decide_eq_true_2 _ He).
  by rewrite lookup_insert_eq.
Qed.

Lemma apply_env_id environ settings :
  (environ !! "prioritize_by_ending_soonest" = Some "1" →
   settings !! "priority_algorithm"
   = Some (JStr PRIORITY_ALGORITHM_ENDING_SOONEST)) →
  (environ !! "UNLINKED_CAMPAIGNS" = Some "1" →
   settings !! "unlinked_campaigns" = Some (JBool true)) →
  apply_env environ settings = settings.
Proof.
  intros H1 H2. unfold apply_env.
  destruct (bool_decide_reflect
              (environ !! "prioritize_by_ending_soonest" = Some "1")) as [He1|_];
    [rewrite (insert_id _ _ _ (H1 He1))|];
    (destruct (bool_decide_reflect
                 (environ !! "UNLINKED_CAMPAIGNS" = Some "1")) as [He2|_];
     [by rewrite (insert_id _ _ _ (H2 He2))|done]).
Qed.

Lemma migration_fixpoint environ self :
  is_Some (_settings (__get_settings_from_env__ environ self) !! "priority_algorithm") →
  _settings (__get_settings_from_env__ environ
               (__get_settings_from_env__ environ self))
  = _settings (__get_settings_from_env__ environ self).
Proof.
  intros [v Hv].
  assert (apply_env environ (_settings (__get_settings_from_env__ environ self))
          = _settings (__get_settings_from_env__ environ self)) as Hid.
  { clear Hv. apply apply_env_id; intros He.
    - pose proof (apply_env_algorithm environ (_settings self) He) as Ha.
      rewrite get_settings_from_env_unfold. simpl. by rewrite Ha.
    - pose proof (apply_env_unlinked environ (_settings self) He) as Hu.
      rewrite get_settings_from_env_unfold. simpl.
      destruct (_ !! "priority_algorithm"); simpl; [done|].
      destruct (_ !! "prioritize_by_ending_soonest") as [legacy|]; simpl.
      + rewrite lookup_delete_ne by done.
        destruct (truthy legacy); [rewrite lookup_insert_ne by done|]; done.
      + by rewrite lookup_insert_ne. }
  rewrite (get_settings_from_env_unfold environ (__get_settings_from_env__ _ _)).
  simpl. rewrite Hid, Hv. done.
Qed.

Lemma apply_env_none environ settings :
  environ !! "prioritize_by_ending_soonest" ≠ Some "1" →
  environ !! "UNLINKED_CAMPAIGNS" ≠ Some "1" →
  apply_env environ settings = settings.
Proof.
  intros H1 H2. unfold apply_env.
  by rewrite (bool_decide_eq_false_2 _ H1), (bool_decide_eq_false_2 _ H2).
Qed.

(** C8 (amended). On a load with no override in the environment, for a
    loaded settings map without [priority_algorithm] in which the legacy key
    is present with a true value, the migration sets [priority_algorithm] to
    ENDING_SOONEST and deletes the legacy key. A map that has
    [priority_algorithm] is left as it is, legacy key included. Whenever the
    migration leaves [priority_algorithm] set, applying it a second time
    leaves the settings unchanged. *)
Theorem migration_spec (environ : gmap string string)
    (settings : gmap string Json) :
  (environ !! "prioritize_by_ending_soonest" ≠ Some "1" →
   environ !! "UNLINKED_CAMPAIGNS" ≠ Some "1" →
   (∀ legacy,
      settings !! "priority_algorithm" = None →
      settings !! "prioritize_by_ending_soonest" = Some legacy →
      truthy legacy = true →
      _settings (__init__ environ settings)
      = delete "prioritize_by_ending_soonest"
          (<["priority_algorithm" := JStr PRIORITY_ALGORITHM_ENDING_SOONEST]>
             settings)) ∧
   (is_Some (settings !! "priority_algorithm") →
    _settings (__init__ environ settings) = settings)) ∧
  (∀ self,
     is_Some (_settings (__get_settings_from_env__ environ self)
                !! "priority_algorithm") →
     _settings (__get_settings_from_env__ environ
                  (__get_settings_from_env__ environ self))
     = _settings (__get_settings_from_env__ environ self)).
Proof.
  split.
  - intros He1 He2. unfold __init__. cbn [_settings].
    rewrite get_settings_from_env_unfold. cbv zeta. cbn [_settings].
    rewrite (apply_env_none environ settings He1 He2). split.
    + intros legacy Hpa Hl Ht. by rewrite Hpa, Hl, Ht.
    + intros [v Hv]. by rewrite Hv.
  - intros self. apply migration_fixpoint.
Qed.

End claims.

Lemma migration_spec_witness :
  _settings (@__init__ ClientClaims.names ∅ legacy_only)
  = delete "prioritize_by_ending_soonest"
      (<["priority_algorithm" := JStr "ENDING_SOONEST"]> legacy_only).
Proof.
  refine (proj1 (proj1 (@migration_spec ClientClaims.names ∅ legacy_only) _ _)
            (JBool true) eq_refl eq_refl eq_refl);
    by rewrite lookup_empty.
Defined.

End SettingsClaims.

(** ** More on the settings: what a load leaves in [priority_algorithm] *)

Module SettingsMore.
Import Settings SettingsClaims.

Section more.
Context `{AlgorithmNames}.

Lemma apply_env_lookup_algorithm environ settings :
  apply_env environ settings !! "priority_algorithm"
  = if bool_decide (environ !! "prioritize_by_ending_soonest" = Some "1")
    then Some (JStr PRIORITY_ALGORITHM_ENDING_SOONEST)
    else settings !! "priority_algorithm".
Proof.
  unfold apply_env.
  destruct (bool_decide (environ !! "prioritize_by_ending_soonest" = Some "1")),
    (bool_decide (environ !! "UNLINKED_CAMPAIGNS" = Some "1"));
    rewrite ?(lookup_insert_ne _ "unlinked_campaigns") by done;
    by rewrite ?lookup_insert_eq.
Qed.

Lemma apply_env_lookup_legacy environ settings :
  apply_env environ settings !! "prioritize_by_ending_soonest" = settings !! "prioritize_by_ending_soonest".
Proof.
  unfold apply_env.
  destruct (bool_decide (environ !! "prioritize_by_ending_soonest" = Some "1")),
    (bool_decide (environ !! "UNLINKED_CAMPAIGNS" = Some "1"));
    by rewrite ?lookup_insert_ne by done.
Qed.

(** The two keys after one run of the migration. *)
Lemma migrated_algorithm environ self :
  _settings (__get_settings_from_env__ environ self) !! "priority_algorithm"
  = match apply_env environ (_settings self) !! "priority_algorithm" with
    | Some v => Some v
    | None =>
        match _settings self !! "prioritize_by_ending_soonest" with
        | Some legacy =>
            if truthy legacy then Some (JStr PRIORITY_ALGORITHM_ENDING_SOONEST)
            else None
        | None => Some (JStr PRIORITY_ALGORITHM_LIST)
        end
    end.
Proof.
  rewrite get_settings_from_env_unfold. cbv zeta.
  rewrite <-(apply_env_lookup_legacy environ (_settings self)).
  destruct (apply_env environ (_settings self) !! "priority_algorithm") as [v|] eqn:Ha;
    simpl; [done|].
  destruct (apply_env environ (_settings self) !! "prioritize_by_ending_soonest") as [legacy|];
    simpl.
  - rewrite lookup_delete_ne by done.
    destruct (truthy legacy); [by rewrite lookup_insert_eq|done].
  - by rewrite lookup_insert_eq.
Qed.

Lemma migrated_legacy environ self :
  _settings (__get_settings_from_env__ environ self) !! "priority_algorithm" = None →
  _settings (__get_settings_from_env__ environ self) !! "prioritize_by_ending_soonest" = None.
Proof.
  rewrite get_settings_from_env_unfold. cbv zeta.
  destruct (apply_env environ (_settings self) !! "priority_algorithm") as [v|] eqn:Ha;
    simpl; [by rewrite Ha|].
  destruct (apply_env environ (_settings self) !! "prioritize_by_ending_soonest") as [legacy|];
    simpl.
  - intros _. by rewrite lookup_delete_eq.
  - by rewrite lookup_insert_eq.
Qed.

(** X14. One run of the migration leaves [priority_algorithm] unset in one
    case only: no override in the environment, no [priority_algorithm] in the
    file, and a legacy key whose value is false. The legacy key is deleted
    then, so a second run sets the default, the ordered list. After two runs
    [priority_algorithm] is always set, and further runs change nothing. *)
Theorem migration_settles (environ : gmap string string) (self : t) :
  let once := __get_settings_from_env__ environ self in
  let twice := __get_settings_from_env__ environ once in
  (_settings once !! "priority_algorithm" = None ↔
   environ !! "prioritize_by_ending_soonest" ≠ Some "1" ∧
   _settings self !! "priority_algorithm" = None ∧
   ∃ legacy, _settings self !! "prioritize_by_ending_soonest" = Some legacy ∧ truthy legacy = false) ∧
  (_settings once !! "priority_algorithm" = None →
   _settings twice !! "priority_algorithm" = Some (JStr PRIORITY_ALGORITHM_LIST)) ∧
  is_Some (_settings twice !! "priority_algorithm") ∧
  _settings (__get_settings_from_env__ environ twice) = _settings twice.
Proof.
  intros once twice.
  assert (_settings once !! "priority_algorithm" = None →
          _settings twice !! "priority_algorithm" = Some (JStr PRIORITY_ALGORITHM_LIST))
    as Hsecond.
  { intros Hnone. pose proof (migrated_legacy environ self Hnone) as Hleg.
    fold once in Hleg. unfold twice. rewrite migrated_algorithm.
    rewrite apply_env_lookup_algorithm, Hleg, Hnone.
    unfold once in Hnone. rewrite migrated_algorithm in Hnone.
    rewrite apply_env_lookup_algorithm in Hnone.
    by destruct (bool_decide (environ !! "prioritize_by_ending_soonest" = Some "1")). }
  assert (is_Some (_settings twice !! "priority_algorithm")) as Hset.
  { destruct (_settings once !! "priority_algorithm") as [v|] eqn:Ho.
    - pose proof (migration_fixpoint environ self) as Hfix.
      fold once in Hfix. fold twice in Hfix. rewrite Hfix; by rewrite Ho.
    - rewrite Hsecond by done. by eexists. }
  split; [|split; [done|split; [done|]]].
  - unfold once. rewrite migrated_algorithm, apply_env_lookup_algorithm.
    destruct (bool_decide_reflect (environ !! "prioritize_by_ending_soonest" = Some "1")) as [He|He].
    { split; [done|]. by intros [? _]. }
    destruct (_settings self !! "priority_algorithm") as [v|].
    { split; [done|]. by intros (_ & ? & _). }
    destruct (_settings self !! "prioritize_by_ending_soonest") as [legacy|].
    + destruct (truthy legacy) eqn:Ht.
      * split; [done|]. intros (_ & _ & l & [= <-] & ?). congruence.
      * split; [|done]. intros _. split; [done|]. split; [done|]. by exists legacy.
    + split; [done|]. by intros (_ & _ & l & ? & _).
  - exact (migration_fixpoint environ once Hset).
Qed.

(** X15. With [prioritize_by_ending_soonest=1] in the environment, the
    load sets [priority_algorithm] to ENDING_SOONEST in the settings map
    whatever the file says, and no migration takes place: the dirty flag is
    as before and every other key, a legacy key of the file included, keeps
    its entry, but for [unlinked_campaigns] under its own override. *)
Theorem env_override (environ : gmap string string) (self : t) :
  environ !! "prioritize_by_ending_soonest" = Some "1" →
  let after := __get_settings_from_env__ environ self in
  _settings after !! "priority_algorithm"
  = Some (JStr PRIORITY_ALGORITHM_ENDING_SOONEST) ∧
  _altered after = _altered self ∧
  (∀ k, k ≠ "priority_algorithm" → k ≠ "unlinked_campaigns" →
        _settings after !! k = _settings self !! k) ∧
  (environ !! "UNLINKED_CAMPAIGNS" ≠ Some "1" →
   _settings after !! "unlinked_campaigns"
   = _settings self !! "unlinked_campaigns").
Proof.
  intros He after. pose proof (apply_env_algorithm environ (_settings self) He) as Ha.
  unfold after. rewrite get_settings_from_env_unfold. cbv zeta. rewrite Ha.
  simpl. split; [done|]. split; [done|]. unfold apply_env.
  rewrite (bool_decide_eq_true_2 _ He). split.
  - intros k Hk1 Hk2. case_bool_decide; by rewrite !lookup_insert_ne.
  - intros Hu. rewrite (bool_decide_eq_false_2 _ Hu). by rewrite lookup_insert_ne.
Qed.

End more.

Lemma env_override_witness :
  _settings (@__get_settings_from_env__ ClientClaims.names
               {[ "prioritize_by_ending_soonest" := "1" ]} (loaded both_keys))
    !! "priority_algorithm" = Some (JStr "ENDING_SOONEST").
Proof.
  refine (proj1 (@env_override ClientClaims.names
                   {[ "prioritize_by_ending_soonest" := "1" ]}
                   (loaded both_keys) _)).
  vm_compute. reflexivity.
Defined.

End SettingsMore.

(** ** The healthcheck file ([gui/components.py], [gui/manager.py],
       [Twitch._run], [Twitch._watch_loop]) *)

Module Health.

(** What a step does, as far as the healthcheck file and the state machine
    are concerned. [Call] stands for a call whose body has no part in either:
    it is named for the reader, not modelled. [WriteHealthcheck ts] is
    [open('healthcheck.timestamp', 'w')] followed by [f.write(str(ts))]. *)
Inductive State : Type :=
  | IDLE | INVENTORY_FETCH | GAMES_UPDATE | CHANNELS_CLEANUP
  | CHANNELS_FETCH | CHANNEL_SWITCH | EXIT.

#[global] Instance State_eq_dec : EqDecision State.
Proof. solve_decision. Defined.

Inductive effect : Type :=
  | Call (name : string)
  | WriteHealthcheck (ts : Z)
  | ChangeState (s : State)
  | DropDisplay (drop_id : string) (countdown subone : bool)   (* [drop.display(...)] *)
  | TimerStarted
  | TimerCancelled
  | UpdateTime (seconds : Z).



(** The fields of a [TimedDrop] read by the progress display. *)
Record TimedDrop : Type := {
  drop_id : string;
  remaining_minutes : Z;
}.

(** [CampaignProgress]: the displayed drop and whether the timer task runs. *)
Record CampaignProgress : Type := {
  _drop : option TimedDrop;
  _timer_task : bool;
}.

Definition stop_timer (self : CampaignProgress) : CampaignProgress * list effect :=
  if _timer_task self
  then ({| _drop := _drop self; _timer_task := false |}, [TimerCancelled])
  else (self, []).

(** [CampaignProgress.start_timer]; [now] is [int(time())]. *)
Definition start_timer (self : CampaignProgress) (now : Z)
    : CampaignProgress * list effect :=
  let written := [Call "print"; WriteHealthcheck now] in
  if _timer_task self then (self, written)
  else
    match _drop self with
    | None => (self, written ++ [UpdateTime 60])
    | Some drop =>
        if (remaining_minutes drop <=? 0)%Z then (self, written ++ [UpdateTime 60])
        else ({| _drop := _drop self; _timer_task := true |},
              written ++ [TimerStarted])
    end.

(** [CampaignProgress.display(drop, countdown=..., subone=...)] *)
Definition display (self : CampaignProgress) (drop : option TimedDrop)
    (countdown subone : bool) (now : Z) : CampaignProgress * list effect :=
  let self := {| _drop := drop; _timer_task := _timer_task self |} in
  let '(self, stopped) := stop_timer self in
  match drop with
  | None => (self, stopped ++ [UpdateTime 0])
  | Some _ =>
      if countdown then
        let '(self, started) := start_timer self now in
        (self, stopped ++ started)
      else if subone then (self, stopped ++ [UpdateTime 0])
      else (self, stopped ++ [UpdateTime 60])
  end.










End Health.

Module HealthClaims.
Import Health.
















End HealthClaims.

(** ** More on the progress display: its timer *)

Module HealthMore.
Import Health.

(** X20. [CampaignProgress.display] keeps at most one timer task: it cancels
    the task that runs, if any, before anything else, and starts a new one
    exactly when it is to count down for a drop that has minutes left. After
    it, the drop shown is the one passed, and a task runs exactly when one
    was started. *)
Theorem display_timer (self : CampaignProgress) (drop : option TimedDrop)
    (countdown subone : bool) (now : Z) :
  let after := (display self drop countdown subone now).1 in
  let effects := (display self drop countdown subone now).2 in
  _drop after = drop ∧
  _timer_task after
  = countdown && match drop with
                 | Some d => bool_decide (0 < remaining_minutes d)%Z
                 | None => false
                 end ∧
  (_timer_task self = true ↔ head effects = Some TimerCancelled) ∧
  (_timer_task after = true ↔ TimerStarted ∈ effects) ∧
  (_timer_task self = false → TimerCancelled ∉ effects).
Proof.
  unfold display, stop_timer, start_timer.
  destruct self as [shown running], drop as [d|], countdown, subone;
    cbn [_drop _timer_task]; destruct running; cbn -[Z.leb];
    try destruct (Z.leb_spec (remaining_minutes d) 0);
    cbn; rewrite ?bool_decide_eq_true_2, ?bool_decide_eq_false_2 by lia;
    repeat split; try done;
    rewrite ?elem_of_cons, ?elem_of_nil; naive_solver.
Qed.

End HealthMore.

